(** * vec2dic: loaders, normalizers and output of the lexicon expander

    A shallow embedding of [src/vec2dic.cpp].  The program keeps four
    file-level objects ([word2vecid], [vecid2word], [word2pol], [NWE]);
    they are threaded explicitly as a record [globals].  The functions of
    the source keep their names; a loop or a loop body that is reasoned
    about on its own is a definition of its own, named after what it
    does.

    Conventions.
    - A [std::string] is a [string] of bytes ([ascii]); it may contain
      NUL bytes, and [c_str] gives the C view that stops at the first one.
    - [size_t] values are integers modulo [2^64] ([SizeT]); counters of
      type [vid_t] are bounded by the header values and modelled as [nat].
    - [operator[]] at an index beyond [size()] and dereferencing an end
      iterator have no defined behaviour in C++; the model stops there
      with the outcome [OutOfRange] / [UndefinedBehaviour].
    - [std::unordered_map] is a [gmap]; its iteration order is
      unspecified, so every loop over a map takes the order as a list
      that is a permutation of the map's entries.
    - Matrix entries are real numbers: the arithmetic of the two
      normalizers is exact, the rounding of [float]/[double] is not part
      of the model (the cast [float(ilength)] is the identity).  Module
      [Fp] has [_length_normalize] once more in the arithmetic of the
      machine, IEEE-754 binary64 with the cast to binary32. *)

From Stdlib Require Import ZArith QArith Reals Lra Lia Ascii String SpecFloat.
From stdpp Require Import base gmap list strings sorting.

Open Scope Z_scope.

(** ** [size_t] arithmetic *)

Module SizeT.
Definition modulus : Z := 2 ^ 64.
(** [std::string::npos] *)
Definition npos : Z := modulus - 1.
(** [++x] *)
Definition incr (x : Z) : Z := (x + 1) mod modulus.
End SizeT.

(** ** Characters and strings *)

Module CStr.

Definition NUL : ascii := Ascii.zero.
Definition TAB : ascii := ascii_of_N 9.
Definition LF : ascii := ascii_of_N 10.
Definition SPACE : ascii := ascii_of_N 32.

Definition is_nul (c : ascii) : bool := (N_of_ascii c =? 0)%N.

(** [std::isspace] in the "C" locale ([setlocale(LC_ALL, NULL)] only
    queries the locale): space, and the controls HT, LF, VT, FF, CR. *)
Definition isspace (c : ascii) : bool :=
  let n := N_of_ascii c in
  ((n =? 32) || ((9 <=? n) && (n <=? 13)))%N.

(** [::tolower] in the "C" locale. *)
Definition tolower (c : ascii) : ascii :=
  let n := N_of_ascii c in
  if ((65 <=? n) && (n <=? 90))%N then ascii_of_N (n + 32) else c.

Definition size (s : string) : Z := Z.of_nat (String.length s).

(** [s[i]] for [i <= size()]: the byte at [i], and NUL at [size()]. *)
Definition char_at (s : string) (i : nat) : ascii :=
  match String.get i s with
  | Some c => c
  | None => NUL
  end.

(** The suffix of [s] that starts at index [n]. *)
Fixpoint drop_str (n : nat) (s : string) : string :=
  match n, s with
  | O, _ => s
  | S _, EmptyString => EmptyString
  | S n', String _ s' => drop_str n' s'
  end.

(** [s.substr(0, n)] *)
Definition substr0 (s : string) (n : Z) : string :=
  String.substring 0 (Z.to_nat n) s.

(** [s.find_first_of(c)] *)
Fixpoint find_from (c : ascii) (s : string) (i : Z) : Z :=
  match s with
  | EmptyString => SizeT.npos
  | String d s' => if Ascii.eqb d c then i else find_from c s' (i + 1)
  end.

Definition find_first_of (c : ascii) (s : string) : Z := find_from c s 0.

(** [s.compare(pos, str.length(), str) == 0], for [pos <= size()]. *)
Definition compare_eq (s : string) (pos : Z) (str : string) : bool :=
  String.eqb (String.substring (Z.to_nat pos) (String.length str) s) str.

Fixpoint map_str (f : ascii -> ascii) (s : string) : string :=
  match s with
  | EmptyString => EmptyString
  | String c s' => String (f c) (map_str f s')
  end.

(** Erase the leading blanks. *)
Fixpoint ltrim (s : string) : string :=
  match s with
  | EmptyString => EmptyString
  | String c s' => if isspace c then ltrim s' else s
  end.

(** Erase the trailing blanks. *)
Fixpoint rtrim (s : string) : string :=
  match s with
  | EmptyString => EmptyString
  | String c s' =>
      match rtrim s' with
      | EmptyString => if isspace c then EmptyString else String c EmptyString
      | t => String c t
      end
  end.

(** Strip both ends, then downcase. *)
Definition normalize (s : string) : string :=
  map_str tolower (ltrim (rtrim s)).

(** The NUL-terminated view of a string's buffer: what a [const char*]
    reader ([strcmp], [sscanf], [operator<<]) sees. *)
Fixpoint c_str (s : string) : string :=
  match s with
  | EmptyString => EmptyString
  | String c s' => if is_nul c then EmptyString else String c (c_str s')
  end.

(** [strcmp]: bytes compared as [unsigned char], up to the first
    difference or the terminating NUL (the end of a [string] counts as
    its terminator). *)
Fixpoint strcmp (a b : string) : comparison :=
  match a, b with
  | EmptyString, EmptyString => Eq
  | EmptyString, String y _ => if is_nul y then Eq else Lt
  | String x _, EmptyString => if is_nul x then Eq else Gt
  | String x a', String y b' =>
      match N.compare (N_of_ascii x) (N_of_ascii y) with
      | Eq => if is_nul x then Eq else strcmp a' b'
      | o => o
      end
  end.

(** The loop [while (s[++pos] && isspace(s[pos])) {}], entered with
    [pos] already incremented and [rest] the bytes of [s] from [pos] on:
    [rest] is empty exactly when [s[pos]] is the terminating NUL.  The
    loop only advances over bytes of the string, so it never reads
    beyond [size()]. *)
Fixpoint skip_blanks (rest : string) (pos : Z) : Z :=
  match rest with
  | EmptyString => pos
  | String c rest' =>
      if negb (is_nul c) && isspace c
      then skip_blanks rest' (SizeT.incr pos)
      else pos
  end.

(** The loop [while (pos > 0 && isspace(s[pos])) --pos;] for a start
    [pos <= size()]. *)
Fixpoint back_over_blanks (s : string) (pos : nat) : nat :=
  match pos with
  | O => O
  | S p => if isspace (char_at s pos) then back_over_blanks s p else pos
  end.

End CStr.

(** ** Control flow of a loop body *)

(** A loop body either falls through with a value, jumps to the label
    [error_exit], or performs a read that C++ leaves undefined. *)
Inductive flow (A : Type) : Type :=
| Next (a : A)
| ErrorExit
| OutOfRange.
Arguments Next {A} a.
Arguments ErrorExit {A}.
Arguments OutOfRange {A}.

(** The backward loop started at an arbitrary [size_t]: the first test
    reads [s[pos]], which is outside the string when [pos > size()]
    (in particular for [npos]). *)
Definition back_from (s : string) (pos : Z) : flow Z :=
  if (0 <? pos) && (CStr.size s <? pos) then OutOfRange
  else Next (Z.of_nat (CStr.back_over_blanks s (Z.to_nat pos))).

(** ** Polarity classes *)

(** Modelled from the spec: the enumeration [Polarity] is declared in
    [expansion.h], which is not part of the sources; the spec gives
    "PolarityLabel: one of {Positive, Negative, Neutral}", and the switch
    in [output_terms] names the three enumerators. *)
Inductive Polarity : Type := POSITIVE | NEGATIVE | NEUTRAL.

Global Instance Polarity_eq_dec : EqDecision Polarity.
Proof. solve_decision. Defined.

Definition positive : string := "positive".
Definition negative : string := "negative".
Definition neutral : string := "neutral".

(** ** Hash maps *)

(** [m.emplace(k, v)]: inserts only when [k] has no entry yet. *)
Definition emplace `{Countable K} {V} (k : K) (v : V) (m : gmap K V) : gmap K V :=
  match m !! k with
  | Some _ => m
  | None => <[k := v]> m
  end.

(** [l] is a possible iteration order of [m]. *)
Definition iteration_of `{Countable K} {V} (m : gmap K V) (l : list (K * V)) : Prop :=
  l ≡ₚ map_to_list m.

Global Instance flow_ret : MRet flow := fun _ a => Next a.
Global Instance flow_bind : MBind flow := fun _ _ f m =>
  match m with
  | Next a => f a
  | ErrorExit => ErrorExit
  | OutOfRange => OutOfRange
  end.

(** ** Dense matrices ([arma::mat]) *)

Module Arma.

Open Scope R_scope.

(** A matrix of [n_rows] by [n_cols] reals; [at_ M r c] is [M(r, c)],
    meaningful for [r < n_rows] and [c < n_cols]. *)
Record mat : Type := Mat { n_rows : nat; n_cols : nat; at_ : nat -> nat -> R }.

(** [M.reset()]: no elements. *)
Definition reset : mat := Mat 0 0 (fun _ _ => 0).

(** [M.set_size(r, c)]: the new elements are not initialised; [uninit]
    stands for whatever the fresh memory holds. *)
Definition set_size (uninit : nat -> nat -> R) (r c : nat) : mat := Mat r c uninit.

(** [M(r, c) = x] *)
Definition set (M : mat) (r c : nat) (x : R) : mat :=
  Mat (n_rows M) (n_cols M)
      (fun r' c' => if ((r' =? r) && (c' =? c))%nat then x else at_ M r' c').

(** [M.col(i) /= x] *)
Definition col_div (M : mat) (i : nat) (x : R) : mat :=
  Mat (n_rows M) (n_cols M)
      (fun r c => if ((c =? i) && (r <? n_rows M))%nat then at_ M r c / x else at_ M r c).

(** [M.row(i) -= x] *)
Definition row_sub (M : mat) (i : nat) (x : R) : mat :=
  Mat (n_rows M) (n_cols M)
      (fun r c => if ((r =? i) && (c <? n_cols M))%nat then at_ M r c - x else at_ M r c).

(** Entry [i] of [arma::mean(M, 1)]: the mean of row [i] over all
    columns. *)
Definition mean_row (M : mat) (i : nat) : R :=
  fold_left (fun acc j => acc + at_ M i j) (seq 0 (n_cols M)) 0 / INR (n_cols M).

(** Two matrices with the same shape and the same elements. *)
Definition same (A B : mat) : Prop :=
  n_rows A = n_rows B /\ n_cols A = n_cols B /\
  forall r c, (r < n_rows A)%nat -> (c < n_cols A)%nat -> at_ A r c = at_ B r c.

Definition is_empty (M : mat) : Prop := n_rows M = 0%nat /\ n_cols M = 0%nat.

End Arma.

(** ** The file-level objects of the program *)

Record globals : Type := Globals {
  word2vecid : gmap string nat;     (* word -> index of its vector *)
  vecid2word : gmap nat string;     (* index of a vector -> word *)
  word2pol : gmap string Polarity;  (* word -> polarity *)
  NWE : Arma.mat                    (* the word embeddings, one column per word *)
}.

(** The state at program start: empty maps, empty matrix. *)
Definition initial_globals : globals := Globals ∅ ∅ ∅ Arma.reset.

(** What a loader call does: return a status code with the new state, or
    run into undefined behaviour. *)
Inductive result : Type :=
| Returned (code : Z) (g : globals)
| UndefinedBehaviour.

(** An input stream: the lines [std::getline] yields, and whether the
    read after the last of them fails with an I/O error ([true]) or with
    end-of-file ([false]).  A file that cannot be opened is [None]. *)
Record ifstream : Type := IfStream { lines : list string; read_error : bool }.

(** What the program takes from the C library and the allocator: the
    conversion [sscanf(cline, " %f%n", &iwght, &nchars)], giving the value
    and the number of bytes consumed when it returns 1, and the content
    of freshly sized matrix memory. *)
Record runtime : Type := Runtime {
  scan_float : string -> option (R * nat);
  uninit : nat -> nat -> R
}.

(** ** Normalizers *)

(** The inner loop of [_length_normalize]: [ilength += tmp_j * tmp_j]
    for [j = 0 .. n_rows-1]. *)
Definition sum_squares (a_nwe : Arma.mat) (i : nat) : R :=
  fold_left (fun ilength j =>
               let tmp_j := Arma.at_ a_nwe j i in (ilength + tmp_j * tmp_j)%R)
            (seq 0 (Arma.n_rows a_nwe)) 0%R.

(** One iteration of the outer loop, for column [i]: the column is
    divided by its length unless the length is zero.  This is the loop
    in exact arithmetic, where the divisor [float(ilength)] is [ilength];
    [Fp.length_normalize_col] is the loop with the roundings of the
    machine. *)
Definition length_normalize_col (a_nwe : Arma.mat) (i : nat) : Arma.mat :=
  let ilength := sqrt (sum_squares a_nwe i) in
  if Req_dec_T ilength 0 then a_nwe else Arma.col_div a_nwe i ilength.

Definition _length_normalize (a_nwe : Arma.mat) : Arma.mat :=
  fold_left length_normalize_col (seq 0 (Arma.n_cols a_nwe)) a_nwe.

(** [vmean] is computed once, from the matrix as passed in; the loop then
    subtracts [vmean[i]] from row [i]. *)
Definition _mean_normalize (a_nwe : Arma.mat) : Arma.mat :=
  let vmean := Arma.mean_row a_nwe in
  fold_left (fun M i => Arma.row_sub M i (vmean i)) (seq 0 (Arma.n_rows a_nwe)) a_nwe.

(** ** Length normalization in floating point *)

Module Fp.

(** [double], the element type of [arma::mat], is IEEE-754 binary64 and
    [float] is binary32.  [spec_float] is the Standard Library's
    executable model of these formats: a finite number is a sign, a
    mantissa [m] and an exponent [e], of value [m * 2^e], and every
    operation rounds to nearest, ties to even.  [dist_t] is declared in
    [expansion.h], outside the sources, and is taken to be [double],
    wider than the [float] that [ilength] is cast to. *)
Definition double : Type := spec_float.

Definition add : double -> double -> double := SFadd 53 1024.
Definition mul : double -> double -> double := SFmul 53 1024.
Definition div : double -> double -> double := SFdiv 53 1024.
Definition sqrt : double -> double := SFsqrt 53 1024.


(** [float(x)] where a [double] is expected: [x] is rounded to binary32
    and the result widened again, which is exact. *)
Definition float_cast (x : double) : double :=
  match x with
  | S754_finite s m e =>
      match binary_normalize 24 128 (cond_Zopp s (Z.pos m)) e s with
      | S754_finite s' m' e' => binary_normalize 53 1024 (cond_Zopp s' (Z.pos m')) e' s'
      | y => y
      end
  | _ => x
  end.

(** [if (x)]: true unless [x] is a zero. *)
Definition nonzero (x : double) : bool :=
  match x with
  | S754_zero _ => false
  | _ => true
  end.

Record mat : Type := Mat { n_rows : nat; n_cols : nat; at_ : nat -> nat -> double }.

(** [M.col(i) /= x] *)
Definition col_div (M : mat) (i : nat) (x : double) : mat :=
  Mat (n_rows M) (n_cols M)
      (fun r c => if ((c =? i) && (r <? n_rows M))%nat then div (at_ M r c) x else at_ M r c).

(** [ilength = 0.; for (j ...) ilength += tmp_j * tmp_j;] *)
Definition sum_squares (a_nwe : mat) (i : nat) : double :=
  fold_left (fun ilength j => let tmp_j := at_ a_nwe j i in add ilength (mul tmp_j tmp_j))
            (seq 0 (n_rows a_nwe)) (S754_zero false).

Definition length_normalize_col (a_nwe : mat) (i : nat) : mat :=
  let ilength := sqrt (sum_squares a_nwe i) in
  if nonzero ilength then col_div a_nwe i (float_cast ilength) else a_nwe.

Definition _length_normalize (a_nwe : mat) : mat :=
  fold_left length_normalize_col (seq 0 (n_cols a_nwe)) a_nwe.



Definition same (A B : mat) : Prop :=
  n_rows A = n_rows B /\ n_cols A = n_cols B /\
  forall r c, (r < n_rows A)%nat -> (c < n_cols A)%nat -> at_ A r c = at_ B r c.


(** The entry at [(r, c)] once the outer loop has handled the columns
    below [k]. *)
Definition normalized_entry (M : mat) (k r c : nat) : double :=
  if ((c <? k) && (r <? n_rows M))%nat
  then if nonzero (sqrt (sum_squares M c))
       then div (at_ M r c) (float_cast (sqrt (sum_squares M c)))
       else at_ M r c
  else at_ M r c.


End Fp.


(** ** Reading the word vectors *)

Definition is_digit (c : ascii) : bool :=
  let n := N_of_ascii c in ((48 <=? n) && (n <=? 57))%N.

(** The decimal digits at the start of [s], accumulated onto [acc]. *)
Fixpoint scan_digits (s : string) (acc : Z) : Z * string :=
  match s with
  | String c s' =>
      if is_digit c then scan_digits s' (10 * acc + (Z.of_N (N_of_ascii c) - 48))
      else (acc, s)
  | EmptyString => (acc, s)
  end.

(** The conversion [%u] of [sscanf] on a C string: blanks, an optional
    sign, then at least one decimal digit; the value is stored in an
    [unsigned] (reduced modulo [2^32]).  Gives the value and the unread
    rest. *)
Definition scan_unsigned (s : string) : option (Z * string) :=
  let s := CStr.ltrim s in
  let '(neg, s) :=
    match s with
    | String "-" s' => (true, s')
    | String "+" s' => (false, s')
    | _ => (false, s)
    end in
  match s with
  | String c _ =>
      if is_digit c then
        let '(v, rest) := scan_digits s 0 in
        Some ((if neg then - v else v) mod 2 ^ 32, rest)
      else None
  | EmptyString => None
  end.

(** [sscanf(iline.c_str(), "%u %u", &ncolumns, &mrows) == 2] *)
Definition scan_header (iline : string) : option (nat * nat) :=
  '(ncolumns, rest) ← scan_unsigned (CStr.c_str iline);
  '(mrows, _) ← scan_unsigned rest;
  Some (Z.to_nat ncolumns, Z.to_nat mrows).

(** [while (std::getline(is, iline) && iline.empty()) {}]: the first
    non-empty line (or the empty string when the stream ends first) and
    the lines left in the stream. *)
Fixpoint skip_empty_lines (ls : list string) : string * list string :=
  match ls with
  | [] => (EmptyString, [])
  | iline :: rest =>
      match iline with
      | EmptyString => skip_empty_lines rest
      | _ => (iline, rest)
      end
  end.

(** The loop [for (irow = 0; irow < mrows && sscanf(cline, " %f%n", ...)
    == 1; ++irow)], with [todo = mrows - irow]; gives the final [irow]
    and the matrix. *)
Fixpoint scan_row (rt : runtime) (todo irow icol : nat) (cline : string)
    (M : Arma.mat) : nat * Arma.mat :=
  match todo with
  | O => (irow, M)
  | S todo' =>
      match scan_float rt cline with
      | Some (iwght, nchars) =>
          scan_row rt todo' (S irow) icol (CStr.drop_str nchars cline)
                   (Arma.set M irow icol iwght)
      | None => (irow, M)
      end
  end.

(** The loop variables of [read_vectors] that outlive one iteration. *)
Record vec_state : Type := VecState {
  vs_word2vecid : gmap string nat;
  vs_vecid2word : gmap nat string;
  vs_NWE : Arma.mat;
  vs_icol : nat;
  vs_irow : nat
}.

(** The word of a vector line: [iline.substr(0, space_pos)] after the
    blank scan; [ErrorExit] is the "missing word" error. *)
Definition vector_word (iline : string) : flow (string * Z) :=
  let space_pos := CStr.find_first_of CStr.SPACE iline in
  space_pos ← back_from iline space_pos;
  if (space_pos =? 0) && CStr.isspace (CStr.char_at iline 0) then ErrorExit
  else
    let space_pos := SizeT.incr space_pos in
    Next (CStr.substr0 iline space_pos, space_pos).

(** The body of the [while] loop of [read_vectors] for one line. *)
Definition vector_line (rt : runtime) (mrows : nat) (iline : string)
    (s : vec_state) : flow vec_state :=
  '(word, space_pos) ← vector_word iline;
  let icol := vs_icol s in
  let w2v := emplace word icol (vs_word2vecid s) in
  let v2w := emplace icol word (vs_vecid2word s) in
  let cline := CStr.c_str (CStr.drop_str (Z.to_nat space_pos) iline) in
  let '(irow, M) := scan_row rt mrows 0 icol cline (vs_NWE s) in
  if (irow =? mrows)%nat
  then Next (VecState w2v v2w M (S icol) irow)
  else ErrorExit.

(** [while (icol < ncolumns && std::getline(is, iline)) ...], with
    [todo = ncolumns - icol].  The boolean tells whether the loop ended
    on a failed [getline]. *)
Fixpoint vector_loop (rt : runtime) (mrows todo : nat) (ls : list string)
    (s : vec_state) : flow (vec_state * bool) :=
  match todo with
  | O => Next (s, false)
  | S todo' =>
      match ls with
      | [] => Next (s, true)
      | iline :: rest =>
          s' ← vector_line rt mrows iline s;
          vector_loop rt mrows todo' rest s'
      end
  end.

(** The label [error_exit] of [read_vectors]. *)
Definition vectors_error_exit (g : globals) : result :=
  Returned 1 (Globals ∅ ∅ (word2pol g) Arma.reset).

(** [read_vectors] from the opened stream up to [is.close()]: the
    declaration line, the vector lines, and the two checks that follow
    the loop. *)
Definition scan_vectors (rt : runtime) (is_ : ifstream) (g : globals)
    : flow vec_state :=
  let '(iline, rest) := skip_empty_lines (lines is_) in
  match scan_header iline with
  | None => ErrorExit
  | Some (ncolumns, mrows) =>
      let NWE0 := Arma.set_size (uninit rt) mrows ncolumns in
      let s0 := VecState (word2vecid g) (vecid2word g) NWE0 0 0 in
      '(s, getline_failed) ← vector_loop rt mrows ncolumns rest s0;
      if getline_failed && read_error is_ then ErrorExit
      else if negb (vs_irow s =? mrows)%nat then ErrorExit
      else Next s
  end.

(** The two optional passes at the end of [read_vectors]. *)
Definition normalize_vectors (a_no_length_normalize a_no_mean_normalize : bool)
    (M : Arma.mat) : Arma.mat :=
  let M := if a_no_length_normalize then M else _length_normalize M in
  if a_no_mean_normalize then M else _mean_normalize M.

Definition read_vectors (rt : runtime) (a_file : option ifstream)
    (a_no_length_normalize a_no_mean_normalize : bool) (g : globals) : result :=
  match a_file with
  | None => vectors_error_exit g
  | Some is_ =>
      match scan_vectors rt is_ g with
      | OutOfRange => UndefinedBehaviour
      | ErrorExit => vectors_error_exit g
      | Next s =>
          let M := normalize_vectors a_no_length_normalize a_no_mean_normalize (vs_NWE s) in
          Returned 0 (Globals (vs_word2vecid s) (vs_vecid2word s) (word2pol g) M)
      end
  end.

(** ** Reading the seed set *)

(** The chain of [iline.compare(tab_pos, ...)] tests. *)
Definition polarity_at (iline : string) (tab_pos : Z) : option Polarity :=
  if CStr.compare_eq iline tab_pos positive then Some POSITIVE
  else if CStr.compare_eq iline tab_pos negative then Some NEGATIVE
  else if CStr.compare_eq iline tab_pos neutral then Some NEUTRAL
  else None.

(** The body of the [while] loop of [read_seed_set] for one non-empty
    line: the word and the polarity to be emplaced. *)
Definition seed_line (iline : string) : flow (string * Polarity) :=
  let iline := CStr.normalize iline in
  let tab_pos := CStr.find_first_of CStr.TAB iline in
  let tab_pos_orig := tab_pos in
  (* while (iline[++tab_pos] && std::isspace(iline[tab_pos])) {} *)
  let tab_pos := SizeT.incr tab_pos in
  let tab_pos := CStr.skip_blanks (CStr.drop_str (Z.to_nat tab_pos) iline) tab_pos in
  if (tab_pos =? SizeT.npos) || CStr.is_nul (CStr.char_at iline (Z.to_nat tab_pos))
  then ErrorExit
  else
    match polarity_at iline tab_pos with
    | None => ErrorExit
    | Some ipol =>
        tab_pos_orig ← back_from iline tab_pos_orig;
        if (tab_pos_orig =? 0) && CStr.isspace (CStr.char_at iline 0) then ErrorExit
        else
          let tab_pos_orig := SizeT.incr tab_pos_orig in
          Next (CStr.substr0 iline tab_pos_orig, ipol)
    end.

(** [while (std::getline(is, iline)) ...] *)
Fixpoint seed_loop (ls : list string) (w2p : gmap string Polarity)
    : flow (gmap string Polarity) :=
  match ls with
  | [] => Next w2p
  | iline :: rest =>
      match iline with
      | EmptyString => seed_loop rest w2p
      | _ =>
          '(word, ipol) ← seed_line iline;
          seed_loop rest (emplace word ipol w2p)
      end
  end.

(** The label [error_exit] of [read_seed_set]. *)
Definition seed_error_exit (g : globals) : result :=
  Returned 1 (Globals (word2vecid g) (vecid2word g) ∅ (NWE g)).

Definition read_seed_set (a_file : option ifstream) (g : globals) : result :=
  match a_file with
  | None => seed_error_exit g
  | Some is_ =>
      match seed_loop (lines is_) (word2pol g) with
      | OutOfRange => UndefinedBehaviour
      | ErrorExit => seed_error_exit g
      | Next w2p =>
          if read_error is_ then seed_error_exit g
          else Returned 0 (Globals (word2vecid g) (vecid2word g) w2p (NWE g))
      end
  end.

(** ** [main]: from seed words to vector ids *)

(** The body of the loop [for (auto &w2p: word2pol)] of [main]. *)
Definition project_seed (w2v : gmap string nat) (vecid2pol : gmap nat Polarity)
    (w2p : string * Polarity) : gmap nat Polarity :=
  match w2v !! w2p.1 with
  | Some vecid => emplace vecid w2p.2 vecid2pol
  | None => vecid2pol
  end.

(** The loop, run over the entries of [word2pol] in the order [order]. *)
Definition project_seeds (w2v : gmap string nat) (order : list (string * Polarity))
    : gmap nat Polarity :=
  fold_left (project_seed w2v) order ∅.

(** ** Output *)

(** [struct WP]: a C string and a polarity.  [m_word] holds the bytes a
    reader of the [const char*] sees. *)
Record wp_t : Type := WP { m_word : string; m_polarity : Polarity }.

(** The first loop of [output_terms]: each id of [a_vecid2pol], taken in
    the order [order], is looked up in [vecid2word] and its word emplaced
    into [word2pol].  [None] when an id is not found (the iterator
    dereferenced is then [end()]). *)
Fixpoint merge_terms (v2w : gmap nat string) (order : list (nat * Polarity))
    (w2p : gmap string Polarity) : option (gmap string Polarity) :=
  match order with
  | [] => Some w2p
  | (vecid, pol) :: rest =>
      match v2w !! vecid with
      | Some word => merge_terms v2w rest (emplace word pol w2p)
      | None => None
      end
  end.

(** The second loop: [wpv.push_back(WP {w2p.first.c_str(), w2p.second})]. *)
Definition populate (order : list (string * Polarity)) : list wp_t :=
  map (fun '(word, pol) => WP (CStr.c_str word) pol) order.

(** The comparator passed to [std::sort]. *)
Definition wp_less (wp1 wp2 : wp_t) : bool :=
  match CStr.strcmp (m_word wp1) (m_word wp2) with
  | Lt => true
  | _ => false
  end.

(** What [std::sort] guarantees of its result: a rearrangement of the
    input in which no element is less than an earlier one. *)
Definition std_sort_result {A} (less : A -> A -> bool) (l l' : list A) : Prop :=
  l' ≡ₚ l /\ StronglySorted (fun x y => less y x = false) l'.

(** One run of [std::sort]: insertion into a sorted list. *)
Fixpoint sort_insert {A} (less : A -> A -> bool) (x : A) (l : list A) : list A :=
  match l with
  | [] => [x]
  | y :: l' => if less y x then y :: sort_insert less x l' else x :: l
  end.

Definition std_sort {A} (less : A -> A -> bool) (l : list A) : list A :=
  foldr (sort_insert less) [] l.

(** The [switch] of the output loop. *)
Definition polarity_name (p : Polarity) : string :=
  match p with
  | POSITIVE => positive
  | NEGATIVE => negative
  | NEUTRAL => neutral
  end.

(** What the output loop writes for one element. *)
Definition output_line (wp : wp_t) : string :=
  (m_word wp ++ String CStr.TAB (polarity_name (m_polarity wp) ++ String CStr.LF EmptyString))%string.

Definition output_lines (wpv : list wp_t) : list string := map output_line wpv.

(** [output_terms] for given iteration orders and a given run of the
    sort: the new [word2pol] and the lines written. *)
Definition output_terms (order_v2p : list (nat * Polarity))
    (order_w2p : gmap string Polarity -> list (string * Polarity))
    (sort : list wp_t -> list wp_t) (g : globals)
    : option (globals * list string) :=
  w2p ← merge_terms (vecid2word g) order_v2p (word2pol g);
  let wpv := sort (populate (order_w2p w2p)) in
  Some (Globals (word2vecid g) (vecid2word g) w2p (NWE g), output_lines wpv).

(** The lines [out] are a possible output for the final index [w2p]. *)
Definition emitted (w2p : gmap string Polarity) (out : list string) : Prop :=
  exists order wpv,
    iteration_of w2p order /\
    std_sort_result wp_less (populate order) wpv /\
    out = output_lines wpv.

(** ** Notions used in the statements *)

(** A seed-file line [word<TAB>label]. *)
Definition tsv (word label : string) : string :=
  (word ++ String CStr.TAB label)%string.

(** The polarity on the first line of [ls] whose word is [w]. *)
Fixpoint first_label (w : string) (ls : list string) : option Polarity :=
  match ls with
  | [] => None
  | iline :: rest =>
      match seed_line iline with
      | Next (word, ipol) => if decide (word = w) then Some ipol else first_label w rest
      | _ => first_label w rest
      end
  end.

(** The polarity on the last line of [ls] whose word is [w]. *)
Definition last_label (w : string) (ls : list string) : option Polarity :=
  first_label w (rev ls).

(** "Last write wins" for the seed file [ls]. *)
Definition seed_last_write_wins (ls : list string) : Prop :=
  forall g', read_seed_set (Some (IfStream ls false)) initial_globals = Returned 0 g' ->
  forall w, word2pol g' !! w = last_label w ls.

(** The index of the first occurrence of [w] in [ws]. *)
Definition first_index (w : string) (ws : list string) (i : nat) : Prop :=
  ws !! i = Some w /\ forall j, (j < i)%nat -> ws !! j <> Some w.

(** The two vocabulary maps are inverse to each other. *)
Definition inverse_maps (g : globals) : Prop :=
  forall w i, word2vecid g !! w = Some i <-> vecid2word g !! i = Some w.

(** The ids of the vocabulary are exactly [0 .. n-1]. *)
Definition contiguous_ids (g : globals) (n : nat) : Prop :=
  forall i, is_Some (vecid2word g !! i) <-> (i < n)%nat.

(** "The vocabulary is a bijection on contiguous ids" for one file. *)
Definition vocabulary_is_bijection (rt : runtime) (f : ifstream) : Prop :=
  forall l m g', read_vectors rt (Some f) l m initial_globals = Returned 0 g' ->
  inverse_maps g' /\ exists n, contiguous_ids g' n.

(** The vector lines of an embedding file: what follows its declaration
    line. *)
Definition vector_lines (is_ : ifstream) : list string :=
  (skip_empty_lines (lines is_)).2.

(** [ws] lists, in order, the words of the first [length ws] lines of
    [ls]. *)
Definition words_of_lines (ls ws : list string) : Prop :=
  Forall2 (fun iline w => exists space_pos, vector_word iline = Next (w, space_pos))
          (take (length ws) ls) ws.

(** The vocabulary maps once the words [ws] have been registered in turn
    under the ids [icol], [icol + 1], ... *)
Fixpoint index_words (ws : list string) (icol : nat)
    (w2v : gmap string nat) (v2w : gmap nat string)
    : gmap string nat * gmap nat string :=
  match ws with
  | [] => (w2v, v2w)
  | w :: ws' => index_words ws' (S icol) (emplace w icol w2v) (emplace icol w v2w)
  end.

(** The id given to [w] when the words [ws] are numbered from [icol] on:
    that of its first occurrence. *)
Fixpoint first_pos (w : string) (ws : list string) (icol : nat) : option nat :=
  match ws with
  | [] => None
  | x :: ws' => if decide (x = w) then Some icol else first_pos w ws' (S icol)
  end.

(** The sum of [f j] over the indices [j] of [l], accumulated from [a]
    as the loops do. *)
Definition rsum (f : nat -> R) (l : list nat) (a : R) : R :=
  fold_left (fun acc j => (acc + f j)%R) l a.

(** The Euclidean norm of column [i]. *)
Definition col_norm (M : Arma.mat) (i : nat) : R := sqrt (sum_squares M i).

(** The entry at [(r, c)] once the outer loop of [_length_normalize] has
    handled the columns below [k]. *)
Definition normalized_entry (M : Arma.mat) (k r c : nat) : R :=
  if ((c <? k) && (r <? Arma.n_rows M))%nat
  then if Req_dec_T (col_norm M c) 0%R then Arma.at_ M r c
       else (Arma.at_ M r c / col_norm M c)%R
  else Arma.at_ M r c.

(** The entry at [(r, c)] once the loop of [_mean_normalize] has handled
    the rows below [k]. *)
Definition centered_entry (M : Arma.mat) (k r c : nat) : R :=
  if ((r <? k) && (c <? Arma.n_cols M))%nat
  then (Arma.at_ M r c - Arma.mean_row M r)%R
  else Arma.at_ M r c.

(** No byte of [s] is NUL. *)
Fixpoint nul_free (s : string) : bool :=
  match s with
  | EmptyString => true
  | String c s' => negb (CStr.is_nul c) && nul_free s'
  end.

(** Byte-wise lexicographic order on strings. *)
Fixpoint bytes_lt (a b : string) : Prop :=
  match a, b with
  | _, EmptyString => False
  | EmptyString, String _ _ => True
  | String x a', String y b' =>
      (N_of_ascii x < N_of_ascii y)%N \/ (x = y /\ bytes_lt a' b')
  end.

(** The line [word<TAB>polarity-name<newline>]. *)
Definition entry_line (e : string * Polarity) : string :=
  (e.1 ++ String CStr.TAB (polarity_name e.2 ++ String CStr.LF EmptyString))%string.

(** The output [out] lists the entries of the index [w2p], one line per
    word, in strictly ascending byte order of the words. *)
Definition sorted_listing (w2p : gmap string Polarity) (out : list string) : Prop :=
  exists entries : list (string * Polarity),
    entries ≡ₚ map_to_list w2p /\
    out = map entry_line entries /\
    StronglySorted bytes_lt (map fst entries).

(** The word and the polarity an element of [wpv] is printed with. *)
Definition wp_entry (wp : wp_t) : string * Polarity := (m_word wp, m_polarity wp).

(** The claim of a sorted, duplicate-free listing for the index [w2p]. *)
Definition output_is_sorted_listing (w2p : gmap string Polarity) : Prop :=
  forall out, emitted w2p out -> sorted_listing w2p out.

(** ** Sample inputs *)

(** [" %f%n"] for plain decimal literals: blanks, an optional sign,
    digits with an optional fraction.  It stands in for the C library on
    the sample files below, which use no other notation. *)
Definition scan_decimal (s : string) : option (R * nat) :=
  let s1 := CStr.ltrim s in
  let '(neg, s2) :=
    match s1 with
    | String "-" s' => (true, s')
    | String "+" s' => (false, s')
    | _ => (false, s1)
    end in
  let '(ip, s3) := scan_digits s2 0 in
  let ni := (String.length s2 - String.length s3)%nat in
  let '(fp, s4) :=
    match s3 with
    | String "." s' => scan_digits s' ip
    | _ => (ip, s3)
    end in
  let nf := (String.length s3 - String.length s4 - 1)%nat in
  if ((ni =? 0) && (nf =? 0))%nat then None
  else Some ((if neg then - IZR fp else IZR fp) / IZR (10 ^ Z.of_nat nf),
             (String.length s - String.length s4)%nat)%R.

Definition decimal_runtime : runtime := Runtime scan_decimal (fun _ _ => 0%R).

(** The embedding file of the spec's end-to-end scenario. *)
Definition scenario_vectors : ifstream :=
  IfStream ["3 2"; "good 1.0 0.0"; "bad -1.0 0.0"; "table 0.0 1.0"] false.

(** The same file cut after its first vector. *)
Definition truncated_vectors : ifstream :=
  IfStream ["3 2"; "good 1.0 0.0"] false.

(** An embedding file that lists one word twice. *)
Definition repeated_vectors : ifstream :=
  IfStream ["2 1"; "a 1"; "a 2"] false.

(** The spec's malformed header. *)
Definition malformed_vectors : ifstream := IfStream ["abc def"] false.

Definition scenario_seeds : ifstream :=
  IfStream [tsv "good" "positive"; tsv "bad" "negative"] false.

(** A seed file that lists one word twice, with different labels. *)
Definition repeated_seeds : ifstream :=
  IfStream [tsv "good" "positive"; tsv "good" "negative"] false.

(** The state after loading [repeated_seeds] at program start. *)
Definition repeated_seeds_result : globals :=
  Globals ∅ ∅ (<["good" := POSITIVE]> ∅) Arma.reset.

(** Seed files with a line that has no tab. *)
Definition tabless_seeds : ifstream := IfStream ["good positive"] false.
Definition label_only_seeds : ifstream := IfStream ["positive"] false.

(** Two words that differ only after a NUL byte. *)
Definition nul_word (c : ascii) : string :=
  String "a" (String CStr.NUL (String c EmptyString)).

Definition nul_index : gmap string Polarity :=
  <[nul_word "b" := POSITIVE]> (<[nul_word "c" := NEGATIVE]> ∅).

(** The state a successful load of [is_] leaves, read with the sample
    runtime and both normalizers switched off. *)
Definition loaded (is_ : ifstream) : globals :=
  match read_vectors decimal_runtime (Some is_) true true initial_globals with
  | Returned _ g => g
  | UndefinedBehaviour => initial_globals
  end.

(** A matrix with the columns [(3, 4)] and [(0, 0)]. *)
Definition sample_matrix : Arma.mat :=
  Arma.Mat 2 2 (fun r c => if (c =? 0)%nat then if (r =? 0)%nat then 3%R else 4%R else 0%R).

(** A small run: three words with vectors, two seed words of which
    [zebra] has no vector, and a labeling that tags every id (and
    disagrees with the seed label of [good]). *)
Definition sample_word2vecid : gmap string nat :=
  <["good" := 0%nat]> (<["bad" := 1%nat]> (<["table" := 2%nat]> ∅)).

Definition sample_vecid2word : gmap nat string :=
  <[0%nat := "good"]> (<[1%nat := "bad"]> (<[2%nat := "table"]> ∅)).

Definition sample_seed_index : gmap string Polarity :=
  <["good" := POSITIVE]> (<["zebra" := NEGATIVE]> ∅).

Definition sample_labeling : gmap nat Polarity :=
  <[0%nat := NEGATIVE]> (<[1%nat := NEGATIVE]> (<[2%nat := NEUTRAL]> ∅)).

Definition sample_final_index : gmap string Polarity :=
  <["bad" := NEGATIVE]> (<["good" := POSITIVE]>
    (<["table" := NEUTRAL]> (<["zebra" := NEGATIVE]> ∅))).

Definition sample_output : list string :=
  [tsv "bad" "negative" ++ String CStr.LF EmptyString;
   tsv "good" "positive" ++ String CStr.LF EmptyString;
   tsv "table" "neutral" ++ String CStr.LF EmptyString;
   tsv "zebra" "negative" ++ String CStr.LF EmptyString]%string.

(** ** Shapes of strings *)

(** [c] occurs in [s]. *)
Fixpoint has_char (c : ascii) (s : string) : bool :=
  match s with
  | EmptyString => false
  | String d s' => Ascii.eqb d c || has_char c s'
  end.

(** The first byte of [s] is a blank. *)
Definition head_blank (s : string) : bool :=
  match s with
  | EmptyString => false
  | String c _ => CStr.isspace c
  end.

(** The last byte of [s] is a blank. *)
Fixpoint last_blank (s : string) : bool :=
  match s with
  | EmptyString => false
  | String c EmptyString => CStr.isspace c
  | String _ s' => last_blank s'
  end.

(** [s] with every byte downcased. *)
Definition lower (s : string) : string := CStr.map_str CStr.tolower s.

(** [w] is an initial part of [s]. *)
Definition str_prefix (w s : string) : Prop := exists rest, s = (w ++ rest)%string.


(** The shape of a word the vector loader stores: not empty, no space
    character, no blank at its end. *)
Definition vector_word_ok (w : string) : Prop :=
  w <> EmptyString /\ has_char CStr.SPACE w = false /\ last_blank w = false.


(** Every byte of [s] is a blank. *)
Fixpoint all_blank (s : string) : bool :=
  match s with
  | EmptyString => true
  | String c s' => CStr.isspace c && all_blank s'
  end.

(** A seed-file line: the word, a tab, optional blanks, the polarity
    name, and whatever follows it. *)
Definition seed_entry_line (w blanks : string) (p : Polarity) (rest : string) : string :=
  (w ++ String CStr.TAB (blanks ++ (polarity_name p ++ rest)))%string.

(** The declaration line of an embedding file: its first non-empty
    line. *)
Definition header_line (is_ : ifstream) : string :=
  (skip_empty_lines (lines is_)).1.

(** ** [main] *)

(** The selector of the expansion algorithm, with the enumerators that
    [main] and [Option] name. *)
Inductive ExpansionType : Type :=
| NC_CLUSTERING | KNN_CLUSTERING | PCA_CLUSTERING | PRJ_CLUSTERING
| LIN_TRANSFORM | MAX_SENTINEL.

(** The members of [class Option] that [main] reads, as option parsing
    leaves them. *)
Record Option : Type := MkOption {
  knn : Z;
  n_terms : Z;
  no_length_normalize : bool;
  no_mean_normalize : bool;
  etype : ExpansionType
}.

(** The member initializers of [class Option]. *)
Definition default_option : Option := MkOption 5 (-1) false false NC_CLUSTERING.

(** The five expansion functions are declared in [expansion.h] and
    defined outside the given sources.  Each is taken as a parameter: from
    the labeling, the matrix and its numeric arguments to the labeling it
    leaves behind.  Nothing reads the matrix after the call, so only the
    labeling is kept. *)
Record expansion_library : Type := ExpansionLibrary {
  expand_nearest_centroids : gmap nat Polarity -> Arma.mat -> Z -> gmap nat Polarity;
  expand_knn : gmap nat Polarity -> Arma.mat -> Z -> Z -> gmap nat Polarity;
  expand_pca : gmap nat Polarity -> Arma.mat -> Z -> gmap nat Polarity;
  expand_projected : gmap nat Polarity -> Arma.mat -> Z -> gmap nat Polarity;
  expand_linear_transform : gmap nat Polarity -> Arma.mat -> Z -> gmap nat Polarity
}.

(** The [switch (opt.etype)] of [main]; [None] is the exception thrown by
    its default branch. *)
Definition expand (lib : expansion_library) (opt : Option)
    (vecid2pol : gmap nat Polarity) (nwe : Arma.mat) : option (gmap nat Polarity) :=
  match etype opt with
  | NC_CLUSTERING => Some (expand_nearest_centroids lib vecid2pol nwe (n_terms opt))
  | KNN_CLUSTERING => Some (expand_knn lib vecid2pol nwe (n_terms opt) (knn opt))
  | PCA_CLUSTERING => Some (expand_pca lib vecid2pol nwe (n_terms opt))
  | PRJ_CLUSTERING => Some (expand_projected lib vecid2pol nwe (n_terms opt))
  | LIN_TRANSFORM => Some (expand_linear_transform lib vecid2pol nwe (n_terms opt))
  | MAX_SENTINEL => None
  end.

(** What one run leaves open: the order in which each hash map is
    traversed and what [std::sort] makes of its input. *)
Record schedule : Type := Schedule {
  seeds_order : gmap string Polarity -> list (string * Polarity);
  labels_order : gmap nat Polarity -> list (nat * Polarity);
  index_order : gmap string Polarity -> list (string * Polarity);
  sort_run : list wp_t -> list wp_t
}.

(** A schedule the library allows: every order lists the entries of its
    map, and the sort sorts. *)
Definition admissible (sch : schedule) : Prop :=
  (forall m, iteration_of m (seeds_order sch m)) /\
  (forall m, iteration_of m (labels_order sch m)) /\
  (forall m, iteration_of m (index_order sch m)) /\
  (forall l, std_sort_result wp_less l (sort_run sch l)).

(** How a run of [main] ends: it returns a status after writing [out] to
    the standard output, leaves by an exception, or has no defined
    behaviour. *)
Inductive outcome : Type :=
| Exit (code : Z) (out : list string)
| Thrown
| Undefined.

(** [main] from the point where the options are parsed and the two file
    arguments are at hand. *)
Definition main (rt : runtime) (lib : expansion_library) (sch : schedule)
    (opt : Option) (vector_file seed_file : option ifstream) : outcome :=
  match read_vectors rt vector_file (no_length_normalize opt) (no_mean_normalize opt)
                     initial_globals with
  | UndefinedBehaviour => Undefined
  | Returned ret g =>
      if negb (ret =? 0) then Exit ret []
      else
        match read_seed_set seed_file g with
        | UndefinedBehaviour => Undefined
        | Returned ret g =>
            if negb (ret =? 0) then Exit ret []
            else
              let vecid2pol :=
                project_seeds (word2vecid g) (seeds_order sch (word2pol g)) in
              match expand lib opt vecid2pol (NWE g) with
              | None => Thrown
              | Some vecid2pol =>
                  match output_terms (labels_order sch vecid2pol) (index_order sch)
                                     (sort_run sch) g with
                  | None => Undefined
                  | Some (_, out) => Exit ret out
                  end
              end
        end
  end.

(** A library whose expansions add no label, and the schedule that
    follows [map_to_list] and sorts by insertion. *)
Definition idle_library : expansion_library :=
  ExpansionLibrary (fun v _ _ => v) (fun v _ _ _ => v) (fun v _ _ => v)
                   (fun v _ _ => v) (fun v _ _ => v).

Definition sample_schedule : schedule :=
  Schedule map_to_list map_to_list map_to_list (std_sort wp_less).

(** * Properties *)

Example seed_line_good : seed_line (tsv "Good" "positive") = Next ("good", POSITIVE).
Proof. vm_compute. reflexivity. Qed.

Example seed_line_tabless : seed_line "good positive" = ErrorExit.
Proof. vm_compute. reflexivity. Qed.

Example seed_line_label_only : seed_line "positive" = OutOfRange.
Proof. vm_compute. reflexivity. Qed.

Example seed_line_blank : seed_line "   " = ErrorExit.
Proof. vm_compute. reflexivity. Qed.

Example vector_word_good : vector_word "good 1.0 0.0" = Next ("good", 4).
Proof. vm_compute. reflexivity. Qed.

Example header_3_2 : scan_header "3 2" = Some (3%nat, 2%nat).
Proof. vm_compute. reflexivity. Qed.

Example header_abc : scan_header "abc def" = None.
Proof. vm_compute. reflexivity. Qed.

(** ** Hash-map insertion *)

Section emplace.
Context `{Countable K} {V : Type}.
Implicit Types (m : gmap K V) (k : K) (v : V).

Lemma lookup_emplace m k v k' :
  emplace k v m !! k' =
  match m !! k' with
  | Some x => Some x
  | None => if decide (k = k') then Some v else None
  end.
Proof.
  unfold emplace.
  destruct (m !! k) as [x|] eqn:Hk.
  - destruct (m !! k') eqn:Hk'; [done|].
    case_decide; [congruence | done].
  - destruct (decide (k = k')) as [->|Hne].
    + by rewrite lookup_insert_eq, Hk.
    + rewrite lookup_insert_ne by done. by destruct (m !! k').
Qed.

Lemma lookup_emplace_Some m k v k' x :
  m !! k' = Some x -> emplace k v m !! k' = Some x.
Proof. intros Hx. by rewrite lookup_emplace, Hx. Qed.

Lemma emplace_present m k v : is_Some (m !! k) -> emplace k v m = m.
Proof. intros [x Hx]. unfold emplace. by rewrite Hx. Qed.

Lemma lookup_emplace_is_Some m k v : is_Some (emplace k v m !! k).
Proof.
  rewrite lookup_emplace. destruct (m !! k); [eauto|].
  rewrite decide_True by done. eauto.
Qed.

End emplace.

(** ** The seed-set loader *)

Lemma seed_line_empty : seed_line EmptyString = ErrorExit.
Proof. reflexivity. Qed.

Lemma seed_loop_cons iline rest w2p :
  seed_loop (iline :: rest) w2p =
  match iline with
  | EmptyString => seed_loop rest w2p
  | _ => match seed_line iline with
         | Next (word, ipol) => seed_loop rest (emplace word ipol w2p)
         | ErrorExit => ErrorExit
         | OutOfRange => OutOfRange
         end
  end.
Proof.
  destruct iline; [done|]. cbn [seed_loop].
  unfold mbind, flow_bind. by destruct (seed_line _) as [[??]| |].
Qed.

Lemma seed_loop_first_wins ls : forall w2p w2p',
  seed_loop ls w2p = Next w2p' ->
  forall w, w2p' !! w =
            match w2p !! w with
            | Some p => Some p
            | None => first_label w ls
            end.
Proof.
  induction ls as [|iline rest IH]; intros w2p w2p' Hrun w.
  - injection Hrun as <-. by destruct (w2p !! w).
  - rewrite seed_loop_cons in Hrun. cbn [first_label].
    destruct iline as [|c iline'].
    + rewrite seed_line_empty. by apply IH.
    + destruct (seed_line (String c iline')) as [[word ipol]| |]; [|done..].
      rewrite (IH _ _ Hrun w), lookup_emplace.
      destruct (w2p !! w); [done|]. by case_decide.
Qed.

(** C1, as stated, fails: in a seed file that lists [good] first as
    positive and then as negative, the loader keeps positive, the label of
    the first line, not the label of the last line. *)
Lemma seed_last_write_wins_fails :
  ~ seed_last_write_wins (lines repeated_seeds).
Proof.
  intros Hclaim.
  assert (exists g', read_seed_set (Some (IfStream (lines repeated_seeds) false))
                       initial_globals = Returned 0 g' /\
                     word2pol g' !! "good" = Some POSITIVE) as (g' & Hrun & Hgood).
  { eexists. split; vm_compute; reflexivity. }
  specialize (Hclaim g' Hrun "good"). rewrite Hgood in Hclaim.
  vm_compute in Hclaim. discriminate.
Qed.

(** C1, amended: when the same word occurs on several lines of the seed
    file, the earlier occurrence is kept.  For every seed file that the
    loader accepts, the resulting map gives each word the polarity of the
    first line that carries it (and has no entry for other words). *)
Theorem seed_first_write_wins (is_ : ifstream) (g' : globals) :
  read_seed_set (Some is_) initial_globals = Returned 0 g' ->
  forall w, word2pol g' !! w = first_label w (lines is_).
Proof.
  unfold read_seed_set. cbn [word2pol initial_globals].
  destruct (seed_loop (lines is_) ∅) as [w2p| |] eqn:Hloop; [|done..].
  destruct (read_error is_); [done|].
  intros [= <-] w. cbn [word2pol].
  by rewrite (seed_loop_first_wins _ _ _ Hloop w), lookup_empty.
Qed.

Lemma seed_first_write_wins_witness :
  read_seed_set (Some repeated_seeds) initial_globals = Returned 0 repeated_seeds_result /\
  forall w, word2pol repeated_seeds_result !! w = first_label w (lines repeated_seeds).
Proof.
  assert (read_seed_set (Some repeated_seeds) initial_globals
          = Returned 0 repeated_seeds_result) as Hrun by (vm_compute; reflexivity).
  split; [exact Hrun|]. exact (seed_first_write_wins _ _ Hrun).
Defined.

(** C2 at its failing input: the seed file whose only line is [positive],
    without a tab.  The wrapped [tab_pos] is 0, the label is matched at
    the start of the line, and instead of the error exit the loader
    reaches the read of [iline[npos]]; it does not return failure. *)
Theorem tabless_label_line_not_rejected :
  seed_line "positive" = OutOfRange /\
  read_seed_set (Some label_only_seeds) initial_globals = UndefinedBehaviour /\
  forall c g, read_seed_set (Some label_only_seeds) initial_globals <> Returned c g.
Proof. repeat split. intros c g Hrun. vm_compute in Hrun. discriminate. Qed.

(** ** Failure paths *)

Lemma vectors_error_exit_clears g c g' :
  vectors_error_exit g = Returned c g' ->
  word2vecid g' = ∅ /\ vecid2word g' = ∅ /\ Arma.is_empty (NWE g').
Proof. intros [= _ <-]. by repeat split. Qed.

Lemma read_vectors_failure rt a_file l m g c g' :
  read_vectors rt a_file l m g = Returned c g' -> c <> 0 ->
  vectors_error_exit g = Returned c g'.
Proof.
  unfold read_vectors. intros Hrun Hc.
  destruct a_file as [is_|]; [|done].
  destruct (scan_vectors rt is_ g) as [s| |]; [|done..].
  injection Hrun as <- _. done.
Qed.

Lemma read_seed_set_failure a_file g c g' :
  read_seed_set a_file g = Returned c g' -> c <> 0 ->
  seed_error_exit g = Returned c g'.
Proof.
  unfold read_seed_set. intros Hrun Hc.
  destruct a_file as [is_|]; [|done].
  destruct (seed_loop _ _); [|done..].
  destruct (read_error is_); [done|].
  injection Hrun as <- _. done.
Qed.

(** C5: both loaders are atomic on error.  Whenever [read_vectors]
    returns a non-zero status, both vocabulary maps and the embedding
    matrix are empty; whenever [read_seed_set] returns a non-zero status,
    the word-to-polarity map is empty.  This holds for every input file
    (also one that cannot be opened) and every state before the call. *)
Theorem loaders_atomic_on_error :
  (forall rt a_file l m g c g',
      read_vectors rt a_file l m g = Returned c g' -> c <> 0 ->
      word2vecid g' = ∅ /\ vecid2word g' = ∅ /\ Arma.is_empty (NWE g')) /\
  (forall a_file g c g',
      read_seed_set a_file g = Returned c g' -> c <> 0 ->
      word2pol g' = ∅).
Proof.
  split.
  - intros rt a_file l m g c g' Hrun Hc.
    eapply vectors_error_exit_clears, read_vectors_failure; eauto.
  - intros a_file g c g' Hrun Hc.
    apply read_seed_set_failure in Hrun; [|done].
    by injection Hrun as _ <-.
Qed.

Lemma loaders_atomic_on_error_witness :
  (word2vecid (Globals ∅ ∅ ∅ Arma.reset) = ∅ /\
   vecid2word (Globals ∅ ∅ ∅ Arma.reset) = ∅ /\
   Arma.is_empty (NWE (Globals ∅ ∅ ∅ Arma.reset))) /\
  word2pol (Globals ∅ ∅ ∅ Arma.reset) = ∅.
Proof.
  destruct loaders_atomic_on_error as [Hvec Hseed]. split.
  - apply (Hvec decimal_runtime (Some malformed_vectors) false false initial_globals 1).
    + vm_compute. reflexivity.
    + lia.
  - apply (Hseed (Some tabless_seeds) initial_globals 1).
    + vm_compute. reflexivity.
    + lia.
Defined.

(** ** Sums of reals *)

Section rsum.
Open Scope R_scope.

Lemma rsum_ext (f g : nat -> R) l a :
  (forall j, j ∈ l -> f j = g j) -> rsum f l a = rsum g l a.
Proof.
  revert a. induction l as [|j l IH]; intros a Hfg; [done|].
  cbn. rewrite (Hfg j) by left. apply IH. intros j' Hj'. apply Hfg. by right.
Qed.

Lemma rsum_acc (f : nat -> R) l a : rsum f l a = a + rsum f l 0.
Proof.
  revert a. induction l as [|j l IH]; intros a; cbn.
  - lra.
  - fold (rsum f l (a + f j)) (rsum f l (0 + f j)).
    rewrite (IH (a + f j)), (IH (0 + f j)). lra.
Qed.

Lemma rsum_cons (f : nat -> R) j l : rsum f (j :: l) 0 = f j + rsum f l 0.
Proof.
  cbn. fold (rsum f l (0 + f j)). rewrite rsum_acc. lra.
Qed.


Lemma rsum_shift (f : nat -> R) mu l :
  rsum (fun j => f j - mu) l 0 = rsum f l 0 - INR (length l) * mu.
Proof.
  induction l as [|j l IH]; [cbn; lra|].
  rewrite !rsum_cons, IH. cbn [length]. rewrite S_INR. lra.
Qed.

Lemma rsum_nonneg (f : nat -> R) l :
  (forall j, 0 <= f j) -> 0 <= rsum f l 0.
Proof.
  intros Hf. induction l as [|j l IH]; [cbn; lra|].
  rewrite rsum_cons. specialize (Hf j). lra.
Qed.


End rsum.

(** ** Length normalization *)

Section length_normalize.
Open Scope R_scope.
Implicit Types (M : Arma.mat) (r c i k : nat).

Lemma sum_squares_rsum M i :
  sum_squares M i = rsum (fun j => Arma.at_ M j i * Arma.at_ M j i) (seq 0 (Arma.n_rows M)) 0.
Proof. reflexivity. Qed.


Lemma sum_squares_ext A B i :
  Arma.n_rows A = Arma.n_rows B ->
  (forall r, (r < Arma.n_rows A)%nat -> Arma.at_ A r i = Arma.at_ B r i) ->
  sum_squares A i = sum_squares B i.
Proof.
  intros Hrows Hat. rewrite !sum_squares_rsum, <- Hrows.
  apply rsum_ext. intros j Hj. apply elem_of_seq in Hj.
  rewrite Hat by lia. done.
Qed.


Lemma length_normalize_prefix M k :
  let Mk := fold_left length_normalize_col (seq 0 k) M in
  Arma.n_rows Mk = Arma.n_rows M /\ Arma.n_cols Mk = Arma.n_cols M /\
  forall r c, Arma.at_ Mk r c = normalized_entry M k r c.
Proof.
  induction k as [|k (Hrows & Hcols & Hat)]; cbn zeta.
  - repeat split.
  - rewrite seq_S, fold_left_app. cbn [fold_left plus].
    set (Mk := fold_left length_normalize_col (seq 0 k) M) in *.
    assert (col_norm Mk k = col_norm M k) as Hnorm.
    { unfold col_norm. f_equal. apply sum_squares_ext; [done|].
      intros r _. rewrite Hat. unfold normalized_entry.
      by rewrite Nat.ltb_irrefl. }
    unfold length_normalize_col. fold (col_norm Mk k). rewrite Hnorm.
    destruct (Req_dec_T (col_norm M k) 0) as [Hz|Hnz].
    + repeat split; [done..|]. intros r c. rewrite Hat.
      unfold normalized_entry.
      destruct (Nat.ltb_spec c k), (Nat.ltb_spec c (S k)); try lia; try done.
      assert (c = k) as -> by lia. cbn [andb].
      destruct (r <? Arma.n_rows M)%nat; [|done].
      by destruct (Req_dec_T _ _).
    + repeat split; [done..|]. intros r c. cbn [Arma.col_div Arma.at_].
      rewrite Hat, Hrows. unfold normalized_entry.
      destruct (Nat.ltb_spec c k), (Nat.ltb_spec c (S k)), (Nat.eqb_spec c k);
        try lia; try done.
      cbn [andb]. destruct (r <? Arma.n_rows M)%nat; [|done].
      subst c. by destruct (Req_dec_T _ _).
Qed.

Lemma length_normalize_shape M :
  Arma.n_rows (_length_normalize M) = Arma.n_rows M /\
  Arma.n_cols (_length_normalize M) = Arma.n_cols M.
Proof.
  destruct (length_normalize_prefix M (Arma.n_cols M)) as (? & ? & _). done.
Qed.

Lemma length_normalize_entry M r c :
  (r < Arma.n_rows M)%nat -> (c < Arma.n_cols M)%nat ->
  Arma.at_ (_length_normalize M) r c =
  if Req_dec_T (col_norm M c) 0 then Arma.at_ M r c
  else Arma.at_ M r c / col_norm M c.
Proof.
  intros Hr Hc.
  destruct (length_normalize_prefix M (Arma.n_cols M)) as (_ & _ & Hat).
  unfold _length_normalize. rewrite Hat. unfold normalized_entry.
  by rewrite (proj2 (Nat.ltb_lt _ _) Hr), (proj2 (Nat.ltb_lt _ _) Hc).
Qed.




End length_normalize.


(** ** Length normalization in floating point *)

Lemma fp_sum_squares_ext A B i :
  Fp.n_rows A = Fp.n_rows B ->
  (forall r, Fp.at_ A r i = Fp.at_ B r i) ->
  Fp.sum_squares A i = Fp.sum_squares B i.
Proof.
  intros Hrows Hat. unfold Fp.sum_squares. rewrite <- Hrows.
  generalize (S754_zero false). induction (seq 0 (Fp.n_rows A)) as [|j l IH]; [done|].
  intros a. cbn [fold_left]. rewrite Hat. apply IH.
Qed.

Lemma fp_length_normalize_prefix M k :
  let Mk := fold_left Fp.length_normalize_col (seq 0 k) M in
  Fp.n_rows Mk = Fp.n_rows M /\ Fp.n_cols Mk = Fp.n_cols M /\
  forall r c, Fp.at_ Mk r c = Fp.normalized_entry M k r c.
Proof.
  induction k as [|k (Hrows & Hcols & Hat)]; cbn zeta.
  - repeat split.
  - rewrite seq_S, fold_left_app. cbn [fold_left plus].
    set (Mk := fold_left Fp.length_normalize_col (seq 0 k) M) in *.
    assert (Fp.sum_squares Mk k = Fp.sum_squares M k) as Hsum.
    { apply fp_sum_squares_ext; [done|]. intros r. rewrite Hat.
      unfold Fp.normalized_entry. by rewrite Nat.ltb_irrefl. }
    unfold Fp.length_normalize_col. rewrite Hsum.
    destruct (Fp.nonzero (Fp.sqrt (Fp.sum_squares M k))) eqn:Hnz.
    + repeat split; [done..|]. intros r c. cbn [Fp.col_div Fp.at_].
      rewrite Hat, Hrows. unfold Fp.normalized_entry.
      destruct (Nat.ltb_spec c k), (Nat.ltb_spec c (S k)), (Nat.eqb_spec c k);
        try lia; try done.
      cbn [andb]. destruct (r <? Fp.n_rows M)%nat; [|done].
      subst c. by rewrite Hnz.
    + repeat split; [done..|]. intros r c. rewrite Hat.
      unfold Fp.normalized_entry.
      destruct (Nat.ltb_spec c k), (Nat.ltb_spec c (S k)); try lia; try done.
      assert (c = k) as -> by lia. cbn [andb].
      destruct (r <? Fp.n_rows M)%nat; [|done].
      by rewrite Hnz.
Qed.

Lemma fp_sum_squares_zero M i :
  (forall r, (r < Fp.n_rows M)%nat -> exists s, Fp.at_ M r i = S754_zero s) ->
  Fp.sum_squares M i = S754_zero false.
Proof.
  intros Hzero. unfold Fp.sum_squares.
  assert (forall j, j ∈ seq 0 (Fp.n_rows M) -> exists s, Fp.at_ M j i = S754_zero s) as Hl.
  { intros j Hj. apply elem_of_seq in Hj. apply Hzero. lia. }
  induction (seq 0 (Fp.n_rows M)) as [|j l IH]; [done|].
  cbn [fold_left]. destruct (Hl j) as [s ->]; [by left|].
  replace (Fp.add (S754_zero false) (Fp.mul (S754_zero s) (S754_zero s)))
    with (S754_zero false) by (by destruct s).
  apply IH. intros j' Hj'. apply Hl. by right.
Qed.

(** Also with the roundings of the machine, a column of zeros is left as
    it is and the shape of the matrix is kept. *)
Lemma fp_zero_column_unchanged M i :
  (forall r, (r < Fp.n_rows M)%nat -> exists s, Fp.at_ M r i = S754_zero s) ->
  Fp.n_rows (Fp._length_normalize M) = Fp.n_rows M /\
  Fp.n_cols (Fp._length_normalize M) = Fp.n_cols M /\
  forall r, Fp.at_ (Fp._length_normalize M) r i = Fp.at_ M r i.
Proof.
  intros Hzero.
  destruct (fp_length_normalize_prefix M (Fp.n_cols M)) as (Hrows & Hcols & Hat).
  split; [done|]. split; [done|]. intros r.
  unfold Fp._length_normalize. rewrite Hat. unfold Fp.normalized_entry.
  rewrite (fp_sum_squares_zero M i Hzero).
  by destruct (_ && _).
Qed.


(** ** Mean normalization *)

Section mean_normalize.
Open Scope R_scope.
Implicit Types (M : Arma.mat) (r c i k : nat).

Lemma mean_row_rsum M i :
  Arma.mean_row M i = rsum (Arma.at_ M i) (seq 0 (Arma.n_cols M)) 0 / INR (Arma.n_cols M).
Proof. reflexivity. Qed.

Lemma mean_normalize_prefix M k :
  let Mk := fold_left (fun M' i => Arma.row_sub M' i (Arma.mean_row M i)) (seq 0 k) M in
  Arma.n_rows Mk = Arma.n_rows M /\ Arma.n_cols Mk = Arma.n_cols M /\
  forall r c, Arma.at_ Mk r c = centered_entry M k r c.
Proof.
  induction k as [|k (Hrows & Hcols & Hat)]; cbn zeta.
  - repeat split.
  - rewrite seq_S, fold_left_app. cbn [fold_left plus].
    repeat split; [done..|]. intros r c. cbn [Arma.row_sub Arma.at_].
    rewrite Hat, Hcols. unfold centered_entry.
    destruct (Nat.ltb_spec r k), (Nat.ltb_spec r (S k)), (Nat.eqb_spec r k);
      try lia; try done.
    cbn [andb]. destruct (c <? Arma.n_cols M)%nat; [|done]. by subst r.
Qed.

Lemma mean_normalize_shape M :
  Arma.n_rows (_mean_normalize M) = Arma.n_rows M /\
  Arma.n_cols (_mean_normalize M) = Arma.n_cols M.
Proof.
  destruct (mean_normalize_prefix M (Arma.n_rows M)) as (? & ? & _). done.
Qed.

Lemma mean_normalize_entry M r c :
  (r < Arma.n_rows M)%nat -> (c < Arma.n_cols M)%nat ->
  Arma.at_ (_mean_normalize M) r c = Arma.at_ M r c - Arma.mean_row M r.
Proof.
  intros Hr Hc.
  destruct (mean_normalize_prefix M (Arma.n_rows M)) as (_ & _ & Hat).
  unfold _mean_normalize. cbn zeta. rewrite Hat. unfold centered_entry.
  by rewrite (proj2 (Nat.ltb_lt _ _) Hr), (proj2 (Nat.ltb_lt _ _) Hc).
Qed.

End mean_normalize.

(** C7: mean normalization of any matrix with at least one column keeps
    the shape of the matrix, subtracts from every entry the mean of its
    row, and afterwards the mean of every row over all columns is 0 (in
    exact arithmetic). *)
Theorem mean_normalize_centers_rows (M : Arma.mat) :
  (0 < Arma.n_cols M)%nat ->
  Arma.n_rows (_mean_normalize M) = Arma.n_rows M /\
  Arma.n_cols (_mean_normalize M) = Arma.n_cols M /\
  (forall r c, (r < Arma.n_rows M)%nat -> (c < Arma.n_cols M)%nat ->
               Arma.at_ (_mean_normalize M) r c
               = (Arma.at_ M r c - Arma.mean_row M r)%R) /\
  (forall r, (r < Arma.n_rows M)%nat ->
             Arma.mean_row (_mean_normalize M) r = 0%R).
Proof.
  intros Hcols. destruct (mean_normalize_shape M) as [Hr Hc].
  repeat split; [done..| |].
  - intros r c. apply mean_normalize_entry.
  - intros r Hrow. rewrite mean_row_rsum, Hc.
    rewrite (rsum_ext _ (fun j => Arma.at_ M r j - Arma.mean_row M r)%R).
    + rewrite rsum_shift, length_seq, mean_row_rsum.
      assert (INR (Arma.n_cols M) <> 0%R) by (apply not_0_INR; lia).
      by field.
    + intros j Hj. apply elem_of_seq in Hj.
      apply mean_normalize_entry; lia.
Qed.

Lemma mean_normalize_centers_rows_witness :
  (0 < Arma.n_cols sample_matrix)%nat /\
  Arma.mean_row (_mean_normalize sample_matrix) 0 = 0%R.
Proof.
  assert (0 < Arma.n_cols sample_matrix)%nat as Hcols by (cbn; lia).
  split; [exact Hcols|].
  destruct (mean_normalize_centers_rows sample_matrix Hcols) as (_ & _ & _ & Hmean).
  apply Hmean. cbn. lia.
Defined.

(** ** The vector loader *)

Lemma normalize_vectors_shape l m M :
  Arma.n_rows (normalize_vectors l m M) = Arma.n_rows M /\
  Arma.n_cols (normalize_vectors l m M) = Arma.n_cols M.
Proof.
  unfold normalize_vectors.
  destruct l, m; try done.
  - apply mean_normalize_shape.
  - apply length_normalize_shape.
  - destruct (mean_normalize_shape (_length_normalize M)) as [-> ->].
    apply length_normalize_shape.
Qed.

(** C3 at its failing input: the header declares three vectors of two
    values and the file ends after the first vector.  The loader returns
    success with a single word in the vocabulary, whatever normalization
    is requested; the check after the loop compares [irow] with [mrows]
    and never [icol] with [ncolumns]. *)
Theorem truncated_vectors_accepted (l m : bool) :
  scan_header "3 2" = Some (3%nat, 2%nat) /\
  exists g', read_vectors decimal_runtime (Some truncated_vectors) l m initial_globals
             = Returned 0 g' /\
             size (word2vecid g') = 1%nat /\
             size (vecid2word g') = 1%nat /\
             Arma.n_cols (NWE g') = 3%nat.
Proof.
  split; [vm_compute; reflexivity|].
  assert (exists M, scan_vectors decimal_runtime truncated_vectors initial_globals
                    = Next (VecState (<["good" := 0%nat]> ∅) (<[0%nat := "good"]> ∅) M 1 2)
                    /\ Arma.n_cols M = 3%nat) as (M & Hscan & HM).
  { eexists. split; vm_compute; reflexivity. }
  unfold read_vectors. rewrite Hscan.
  eexists. split; [reflexivity|].
  cbn [word2vecid vecid2word NWE vs_word2vecid vs_vecid2word vs_NWE].
  split; [vm_compute; reflexivity|].
  split; [vm_compute; reflexivity|].
  destruct (normalize_vectors_shape l m M) as [_ Hcols].
  by rewrite Hcols.
Qed.

Lemma first_pos_spec w ws : forall k i,
  first_pos w ws k = Some i <-> (k <= i)%nat /\ first_index w ws (i - k).
Proof.
  unfold first_index.
  induction ws as [|x ws IH]; intros k i; cbn [first_pos].
  - split; [done|]. by intros (_ & ? & _).
  - destruct (decide (x = w)) as [->|Hne].
    + split.
      * intros [= ->]. rewrite Nat.sub_diag. split; [lia|]. split; [done|]. lia.
      * intros (Hk & Hi & Hfirst).
        destruct (i - k)%nat as [|d] eqn:Hd; [f_equal; lia|].
        by destruct (Hfirst 0%nat); [lia|].
    + rewrite IH. split.
      * intros (Hk & Hi & Hfirst).
        replace (i - k)%nat with (S (i - S k)) by lia.
        split; [lia|]. split; [done|].
        intros [|j] Hj; cbn; [congruence|]. apply Hfirst. lia.
      * intros (Hk & Hi & Hfirst).
        destruct (i - k)%nat as [|d] eqn:Hd; [cbn in Hi; congruence|].
        replace (i - S k)%nat with d by lia.
        split; [lia|]. split; [done|].
        intros j Hj. apply (Hfirst (S j)). lia.
Qed.

Lemma index_words_lookup ws : forall icol w2v v2w,
  let r := index_words ws icol w2v v2w in
  (forall w, r.1 !! w = match w2v !! w with
                        | Some i => Some i
                        | None => first_pos w ws icol
                        end) /\
  (forall i, r.2 !! i = match v2w !! i with
                        | Some x => Some x
                        | None => if decide (icol <= i)%nat then ws !! (i - icol)%nat else None
                        end).
Proof.
  induction ws as [|x ws IH]; intros icol w2v v2w; cbn zeta; cbn [index_words].
  - cbn [fst snd]. split.
    + intros w. by destruct (w2v !! w).
    + intros i. destruct (v2w !! i); [done|]. case_decide; reflexivity.
  - destruct (IH (S icol) (emplace x icol w2v) (emplace icol x v2w)) as [Hw Hv].
    split.
    + intros w. rewrite Hw, lookup_emplace. cbn [first_pos].
      by destruct (w2v !! w); [|case_decide].
    + intros i. rewrite Hv, lookup_emplace.
      destruct (v2w !! i); [done|].
      destruct (decide (icol = i)) as [->|Hne].
      * rewrite decide_True by lia. by rewrite Nat.sub_diag.
      * destruct (decide (S icol <= i)%nat), (decide (icol <= i)%nat); try lia; [|done].
        by replace (i - icol)%nat with (S (i - S icol)) by lia.
Qed.

Lemma vector_line_Next rt mrows iline s s' :
  vector_line rt mrows iline s = Next s' ->
  exists w space_pos,
    vector_word iline = Next (w, space_pos) /\
    vs_word2vecid s' = emplace w (vs_icol s) (vs_word2vecid s) /\
    vs_vecid2word s' = emplace (vs_icol s) w (vs_vecid2word s) /\
    vs_icol s' = S (vs_icol s).
Proof.
  unfold vector_line, mbind, flow_bind.
  destruct (vector_word iline) as [[w space_pos]| |]; [|done..].
  destruct (scan_row _ _ _ _ _ _) as [irow M].
  destruct (irow =? mrows)%nat; [|done].
  intros [= <-]. eauto 10.
Qed.

Lemma vector_loop_words rt mrows : forall todo ls s s' b,
  vector_loop rt mrows todo ls s = Next (s', b) ->
  exists ws,
    words_of_lines ls ws /\
    (vs_word2vecid s', vs_vecid2word s')
    = index_words ws (vs_icol s) (vs_word2vecid s) (vs_vecid2word s).
Proof.
  induction todo as [|todo IH]; intros ls s s' b; cbn [vector_loop].
  - intros [= <- _]. exists []. split; [constructor|done].
  - destruct ls as [|iline rest].
    + intros [= <- _]. exists []. split; [constructor|done].
    + unfold mbind, flow_bind.
      destruct (vector_line rt mrows iline s) as [s1| |] eqn:Hline; [|done..].
      intros Hloop. apply IH in Hloop as (ws & Hws & Hmaps).
      apply vector_line_Next in Hline as (w & sp & Hword & Hw2v & Hv2w & Hicol).
      exists (w :: ws). split.
      * constructor; [eauto|done].
      * cbn [index_words]. by rewrite Hmaps, Hw2v, Hv2w, Hicol.
Qed.

Lemma scan_vectors_words rt is_ g s :
  scan_vectors rt is_ g = Next s ->
  exists ws,
    words_of_lines (vector_lines is_) ws /\
    (vs_word2vecid s, vs_vecid2word s)
    = index_words ws 0 (word2vecid g) (vecid2word g).
Proof.
  unfold scan_vectors, vector_lines.
  destruct (skip_empty_lines (lines is_)) as [iline rest].
  destruct (scan_header iline) as [[ncolumns mrows]|]; [|done].
  unfold mbind, flow_bind.
  destruct (vector_loop _ _ _ _ _) as [[s' b]| |] eqn:Hloop; [|done..].
  destruct (b && read_error is_); [done|].
  destruct (negb _); [done|].
  intros [= <-]. by apply vector_loop_words in Hloop.
Qed.

(** C4, as stated, fails: an embedding file that lists the word [a]
    twice loads successfully, and then the ids 0 and 1 both map to [a]
    while [a] maps to 0 only. *)
Lemma vocabulary_is_bijection_fails :
  ~ vocabulary_is_bijection decimal_runtime repeated_vectors.
Proof.
  intros Hclaim.
  assert (exists g', read_vectors decimal_runtime (Some repeated_vectors) true true
                       initial_globals = Returned 0 g' /\
                     vecid2word g' !! 1%nat = Some "a" /\
                     word2vecid g' !! "a" = Some 0%nat) as (g' & Hrun & Hid & Hword).
  { eexists. repeat split; vm_compute; reflexivity. }
  destruct (Hclaim true true g' Hrun) as [Hinv _].
  apply Hinv in Hid. congruence.
Qed.

(** C4, amended: after a successful load of any embedding file (from the
    empty state of program start), the id-to-word map has exactly the
    contiguous ids [0 .. n-1], assigned in file order, where [n] is the
    number of vector lines read; the word-to-id map sends each word to
    the id of its first occurrence; every pair of the word-to-id map is
    in the id-to-word map; and the two maps are inverse to each other (a
    bijection) when no word is repeated. *)
Theorem vocabulary_first_occurrence (rt : runtime) (is_ : ifstream)
    (l m : bool) (g' : globals) :
  read_vectors rt (Some is_) l m initial_globals = Returned 0 g' ->
  exists ws,
    words_of_lines (vector_lines is_) ws /\
    (forall i, vecid2word g' !! i = ws !! i) /\
    contiguous_ids g' (length ws) /\
    (forall w, word2vecid g' !! w = first_pos w ws 0) /\
    (forall w i, word2vecid g' !! w = Some i <-> first_index w ws i) /\
    (forall w i, word2vecid g' !! w = Some i -> vecid2word g' !! i = Some w) /\
    (NoDup ws -> inverse_maps g').
Proof.
  unfold read_vectors.
  destruct (scan_vectors rt is_ initial_globals) as [s| |] eqn:Hscan; [|done..].
  intros [= <-].
  apply scan_vectors_words in Hscan as (ws & Hws & Hmaps).
  destruct (index_words_lookup ws 0 ∅ ∅) as [Hw Hv].
  cbn [word2vecid vecid2word initial_globals] in Hmaps.
  rewrite <- Hmaps in Hw, Hv. cbn [fst snd] in Hw, Hv.
  assert (forall i, vs_vecid2word s !! i = ws !! i) as Hv'.
  { intros i. rewrite Hv, lookup_empty, decide_True by lia. by rewrite Nat.sub_0_r. }
  assert (forall w, vs_word2vecid s !! w = first_pos w ws 0) as Hw'.
  { intros w. by rewrite Hw, lookup_empty. }
  assert (forall w i, vs_word2vecid s !! w = Some i <-> first_index w ws i) as Hfirst.
  { intros w i. rewrite Hw', first_pos_spec, Nat.sub_0_r. intuition lia. }
  assert (forall w i, vs_word2vecid s !! w = Some i -> vs_vecid2word s !! i = Some w)
    as Hsub.
  { intros w i Hwi. rewrite Hv'. by apply Hfirst in Hwi as [? _]. }
  exists ws. unfold contiguous_ids, inverse_maps. cbn [word2vecid vecid2word].
  split; [done|]. split; [done|].
  split; [intros i; rewrite Hv'; apply lookup_lt_is_Some|].
  split; [done|]. split; [done|]. split; [done|].
  intros Hnodup w i. split; [apply Hsub|].
  rewrite Hv'. intros Hi. apply Hfirst. split; [done|].
  intros j Hj Hjw. pose proof (NoDup_lookup _ _ _ _ Hnodup Hi Hjw). lia.
Qed.

Lemma vocabulary_first_occurrence_witness :
  read_vectors decimal_runtime (Some repeated_vectors) true true initial_globals
  = Returned 0 (loaded repeated_vectors) /\
  exists ws,
    words_of_lines (vector_lines repeated_vectors) ws /\
    (forall i, vecid2word (loaded repeated_vectors) !! i = ws !! i) /\
    contiguous_ids (loaded repeated_vectors) (length ws) /\
    (forall w, word2vecid (loaded repeated_vectors) !! w = first_pos w ws 0) /\
    (forall w i, word2vecid (loaded repeated_vectors) !! w = Some i <-> first_index w ws i) /\
    (forall w i, word2vecid (loaded repeated_vectors) !! w = Some i ->
                 vecid2word (loaded repeated_vectors) !! i = Some w) /\
    (NoDup ws -> inverse_maps (loaded repeated_vectors)).
Proof.
  assert (read_vectors decimal_runtime (Some repeated_vectors) true true initial_globals
          = Returned 0 (loaded repeated_vectors)) as Hrun by (vm_compute; reflexivity).
  split; [exact Hrun|].
  exact (vocabulary_first_occurrence _ _ _ _ _ Hrun).
Defined.

(** ** Merging the labeling into the word index *)

Lemma merge_terms_keeps v2w order : forall w2p w2p',
  merge_terms v2w order w2p = Some w2p' ->
  forall w p, w2p !! w = Some p -> w2p' !! w = Some p.
Proof.
  induction order as [|[vecid pol] rest IH]; intros w2p w2p' Hrun w p Hw;
    cbn [merge_terms] in Hrun.
  - by injection Hrun as <-.
  - destruct (v2w !! vecid) as [word|]; [|done].
    eapply IH; [done|]. by apply lookup_emplace_Some.
Qed.

Lemma merge_terms_covers v2w order : forall w2p w2p',
  merge_terms v2w order w2p = Some w2p' ->
  forall vecid pol, (vecid, pol) ∈ order ->
  exists word, v2w !! vecid = Some word /\ is_Some (w2p' !! word).
Proof.
  induction order as [|[vecid0 pol0] rest IH]; intros w2p w2p' Hrun vecid pol Hin;
    cbn [merge_terms] in Hrun.
  - by apply elem_of_nil in Hin.
  - destruct (v2w !! vecid0) as [word0|] eqn:Hword0; [|done].
    apply elem_of_cons in Hin as [[= -> ->]|Hin].
    + exists word0. split; [done|].
      destruct (lookup_emplace_is_Some w2p word0 pol0) as [q Hq].
      exists q. by eapply merge_terms_keeps.
    + by eapply IH.
Qed.

Lemma merge_terms_settled v2w order w2p :
  (forall vecid pol, (vecid, pol) ∈ order ->
     exists word, v2w !! vecid = Some word /\ is_Some (w2p !! word)) ->
  merge_terms v2w order w2p = Some w2p.
Proof.
  induction order as [|[vecid pol] rest IH]; intros Hall; cbn [merge_terms]; [done|].
  destruct (Hall vecid pol) as (word & -> & Hword); [by left|].
  rewrite emplace_present by done.
  apply IH. intros vecid' pol' Hin. apply (Hall vecid' pol'). by right.
Qed.

Lemma emitted_line w2p out w p :
  emitted w2p out -> w2p !! w = Some p ->
  output_line (WP (CStr.c_str w) p) ∈ out.
Proof.
  intros (order & wpv & Horder & [Hperm _] & ->) Hw.
  unfold output_lines. apply (list_elem_of_fmap_2 output_line).
  rewrite Hperm. unfold populate.
  apply (list_elem_of_fmap_2 (fun '(word, pol) => WP (CStr.c_str word) pol) _ (w, p)).
  rewrite Horder. by apply elem_of_map_to_list.
Qed.

(** C8: merging the completed labeling into the word index is
    idempotent: once the labeling [v2p] has been merged, merging it again
    (in any iteration order) succeeds and leaves the index as it is.  The
    entries the index had before the merge, the seed words, are kept: a
    seed word keeps its seed polarity in the final index, also when the
    labeling carries a label for its id, and its output line shows the
    seed polarity. *)
Theorem merge_idempotent_and_seeds_kept (v2w : gmap nat string)
    (v2p : gmap nat Polarity) (w2p w2p' : gmap string Polarity)
    (order : list (nat * Polarity)) :
  iteration_of v2p order ->
  merge_terms v2w order w2p = Some w2p' ->
  (forall order', iteration_of v2p order' ->
                  merge_terms v2w order' w2p' = Some w2p') /\
  (forall w p, w2p !! w = Some p ->
               w2p' !! w = Some p /\
               forall out, emitted w2p' out ->
                           output_line (WP (CStr.c_str w) p) ∈ out).
Proof.
  intros Horder Hrun. split.
  - intros order' Horder'. apply merge_terms_settled.
    intros vecid pol Hin. eapply merge_terms_covers; [done|].
    unfold iteration_of in *. rewrite Horder. by rewrite <- Horder'.
  - intros w p Hw.
    assert (w2p' !! w = Some p) as Hw' by by eapply merge_terms_keeps.
    split; [done|]. intros out Hout. by eapply emitted_line.
Qed.

(** ** Seed words without a vector *)

Lemma project_seeds_origin (w2v : gmap string nat) order :
  forall (acc : gmap nat Polarity) vecid pol,
  fold_left (project_seed w2v) order acc !! vecid = Some pol ->
  acc !! vecid = Some pol \/
  exists word, (word, pol) ∈ order /\ w2v !! word = Some vecid.
Proof.
  induction order as [|[word0 pol0] rest IH]; intros acc vecid pol; cbn [fold_left].
  - by left.
  - intros Hfold. apply IH in Hfold as [Hacc|(word & Hin & Hword)].
    + unfold project_seed in Hacc. cbn [fst snd] in Hacc.
      destruct (w2v !! word0) as [vecid0|] eqn:Hword0; [|by left].
      rewrite lookup_emplace in Hacc.
      destruct (acc !! vecid) eqn:Hold; [by left|].
      case_decide; [|done]. injection Hacc as <-. subst vecid0.
      right. exists word0. split; [by left|done].
    + right. exists word. split; [by right|done].
Qed.

(** C10: a seed word without an entry in the embedding vocabulary gives
    no entry to the id-keyed labeling built by [main] (every entry of
    that labeling stems from another seed word, one that has a vector
    id); still, whatever labeling the expansion returns, the word stays
    in the word index with its seed polarity after the merge, and every
    output carries its line.  So the output can contain words that have
    no embedding vector. *)
Theorem seed_without_vector_is_output (w2v : gmap string nat)
    (v2w : gmap nat string) (w2p : gmap string Polarity)
    (w : string) (p : Polarity) :
  w2p !! w = Some p ->
  w2v !! w = None ->
  (forall order vecid pol,
      iteration_of w2p order ->
      project_seeds w2v order !! vecid = Some pol ->
      exists w', w' <> w /\ w2v !! w' = Some vecid /\ w2p !! w' = Some pol) /\
  (forall (order_v2p : list (nat * Polarity)) w2p',
      merge_terms v2w order_v2p w2p = Some w2p' ->
      w2p' !! w = Some p /\
      forall out, emitted w2p' out -> output_line (WP (CStr.c_str w) p) ∈ out).
Proof.
  intros Hw Hnovec. split.
  - intros order vecid pol Horder Hproj.
    apply project_seeds_origin in Hproj as [Hempty|(w' & Hin & Hw')].
    + by rewrite lookup_empty in Hempty.
    + exists w'. split; [congruence|]. split; [done|].
      apply elem_of_map_to_list. unfold iteration_of in Horder. by rewrite <- Horder.
  - intros order_v2p w2p' Hrun.
    assert (w2p' !! w = Some p) as Hw' by by eapply merge_terms_keeps.
    split; [done|]. intros out Hout. by eapply emitted_line.
Qed.

(** ** C strings and their order *)

Lemma is_nul_spec c : CStr.is_nul c = true <-> N_of_ascii c = 0%N.
Proof. unfold CStr.is_nul. apply N.eqb_eq. Qed.

Lemma N_of_ascii_inj x y : N_of_ascii x = N_of_ascii y -> x = y.
Proof.
  intros Hxy. rewrite <- (ascii_N_embedding x), <- (ascii_N_embedding y).
  by rewrite Hxy.
Qed.

Lemma c_str_nul_free s : nul_free s = true -> CStr.c_str s = s.
Proof.
  induction s as [|c s IH]; [done|]. cbn.
  destruct (CStr.is_nul c); [done|]. cbn. intros Hs. by rewrite IH.
Qed.

Lemma is_nul_false c : CStr.is_nul c = false <-> N_of_ascii c <> 0%N.
Proof. unfold CStr.is_nul. apply N.eqb_neq. Qed.

(** Case analysis on every byte test and byte comparison of the goal. *)
Ltac byte_cases :=
  repeat match goal with
         | |- context [CStr.is_nul ?c] =>
             let H := fresh "Hnul" in
             destruct (CStr.is_nul c) eqn:H;
             [apply is_nul_spec in H | apply is_nul_false in H]
         | |- context [(?a ?= ?b)%N] => destruct (N.compare_spec a b)
         end.

Lemma strcmp_antisym a : forall b, CStr.strcmp b a = CompOpp (CStr.strcmp a b).
Proof.
  induction a as [|x a IH]; intros [|y b]; cbn [CStr.strcmp].
  - done.
  - by destruct (CStr.is_nul y).
  - by destruct (CStr.is_nul x).
  - rewrite (N.compare_antisym (N_of_ascii x) (N_of_ascii y)).
    destruct (N.compare_spec (N_of_ascii x) (N_of_ascii y)) as [Hxy| |]; [|done..].
    apply N_of_ascii_inj in Hxy as ->. cbn [CompOpp].
    destruct (CStr.is_nul y); [done|]. apply IH.
Qed.

Lemma strcmp_le_trans a : forall b c,
  CStr.strcmp a b <> Gt -> CStr.strcmp b c <> Gt -> CStr.strcmp a c <> Gt.
Proof.
  induction a as [|x a IH]; intros [|y b] [|z c]; cbn [CStr.strcmp];
    byte_cases; intros; try done; try lia.
  eapply IH; eassumption.
Qed.

Lemma nul_free_cons c s :
  nul_free (String c s) = true <-> CStr.is_nul c = false /\ nul_free s = true.
Proof. cbn [nul_free]. rewrite andb_true_iff, negb_true_iff. done. Qed.

Lemma strcmp_not_lt_bytes_lt a : forall b,
  nul_free a = true -> nul_free b = true ->
  CStr.strcmp b a <> Lt -> a <> b -> bytes_lt a b.
Proof.
  induction a as [|x a IH]; intros [|y b] Ha Hb; cbn [CStr.strcmp bytes_lt];
    try done.
  - apply nul_free_cons in Ha as [-> _]. done.
  - apply nul_free_cons in Ha as [Hx Ha]. apply nul_free_cons in Hb as [Hy Hb].
    destruct (N.compare_spec (N_of_ascii y) (N_of_ascii x)) as [Hyx|Hyx|Hyx].
    + apply N_of_ascii_inj in Hyx as ->. rewrite Hy. intros Hcmp Hne.
      right. split; [done|]. apply IH; [done..|]. congruence.
    + done.
    + intros _ _. left. lia.
Qed.

(** ** Sorting *)

Lemma wp_less_asym wp1 wp2 : wp_less wp1 wp2 = true -> wp_less wp2 wp1 = false.
Proof.
  unfold wp_less. rewrite (strcmp_antisym (m_word wp1) (m_word wp2)).
  by destruct (CStr.strcmp (m_word wp1) (m_word wp2)).
Qed.

Lemma wp_less_negtrans wp1 wp2 wp3 :
  wp_less wp2 wp1 = false -> wp_less wp3 wp2 = false -> wp_less wp3 wp1 = false.
Proof.
  unfold wp_less.
  rewrite (strcmp_antisym (m_word wp1) (m_word wp2)),
          (strcmp_antisym (m_word wp2) (m_word wp3)),
          (strcmp_antisym (m_word wp1) (m_word wp3)).
  intros H12 H23.
  pose proof (strcmp_le_trans (m_word wp1) (m_word wp2) (m_word wp3)) as Htrans.
  destruct (CStr.strcmp (m_word wp1) (m_word wp2)),
           (CStr.strcmp (m_word wp2) (m_word wp3)),
           (CStr.strcmp (m_word wp1) (m_word wp3)); try done;
    by destruct Htrans.
Qed.

Section std_sort.
Context {A : Type} (less : A -> A -> bool).
Hypothesis less_asym : forall x y, less x y = true -> less y x = false.
Hypothesis less_negtrans : forall x y z,
  less y x = false -> less z y = false -> less z x = false.

Lemma sort_insert_perm x l : sort_insert less x l ≡ₚ x :: l.
Proof.
  induction l as [|y l IH]; cbn [sort_insert]; [done|].
  destruct (less y x); [|done]. rewrite IH. apply Permutation_swap.
Qed.

Lemma sort_insert_sorted x l :
  StronglySorted (fun a b => less b a = false) l ->
  StronglySorted (fun a b => less b a = false) (sort_insert less x l).
Proof.
  induction l as [|y l IH]; cbn [sort_insert]; intros Hl.
  - repeat constructor.
  - apply StronglySorted_cons in Hl as [Hy Hl].
    destruct (less y x) eqn:Hyx.
    + apply StronglySorted_cons. split; [|by apply IH].
      rewrite sort_insert_perm. constructor; [by apply less_asym|done].
    + apply StronglySorted_cons. split; [|by apply StronglySorted_cons].
      constructor; [done|].
      eapply Forall_impl; [exact Hy|]. intros z Hz. by eapply less_negtrans.
Qed.

Lemma std_sort_correct l : std_sort_result less l (std_sort less l).
Proof.
  unfold std_sort_result, std_sort. induction l as [|x l [IHp IHs]]; cbn [foldr].
  - split; [done|constructor].
  - split; [by rewrite sort_insert_perm, IHp|by apply sort_insert_sorted].
Qed.

End std_sort.

(** Every index has an output: the lines printed after one run of the
    sort over the entries in the order [map_to_list] lists them. *)
Lemma emitted_exists (w2p : gmap string Polarity) :
  emitted w2p (output_lines (std_sort wp_less (populate (map_to_list w2p)))).
Proof.
  exists (map_to_list w2p), (std_sort wp_less (populate (map_to_list w2p))).
  split; [unfold iteration_of; reflexivity|]. split; [|reflexivity].
  apply std_sort_correct; [apply wp_less_asym|apply wp_less_negtrans].
Qed.

(** ** The sorted listing *)

Lemma populate_nul_free order :
  Forall (fun e : string * Polarity => nul_free e.1 = true) order ->
  map wp_entry (populate order) = order.
Proof.
  induction 1 as [|[w p] order Hw _ IH]; [reflexivity|].
  unfold populate in *. cbn [map wp_entry m_word m_polarity fst] in *.
  rewrite (c_str_nul_free w Hw). f_equal. exact IH.
Qed.

Lemma sorted_words_strict (wpv : list wp_t) :
  StronglySorted (fun x y => wp_less y x = false) wpv ->
  NoDup (map m_word wpv) ->
  Forall (fun wp => nul_free (m_word wp) = true) wpv ->
  StronglySorted bytes_lt (map m_word wpv).
Proof.
  induction wpv as [|x wpv IH]; cbn [map]; intros Hsorted Hnodup Hnul.
  - constructor.
  - apply StronglySorted_cons in Hsorted as [Hx Hsorted].
    apply NoDup_cons in Hnodup as [Hnotin Hnodup].
    apply Forall_cons in Hnul as [Hxnul Hnul].
    apply StronglySorted_cons. split; [|by apply IH].
    apply Forall_fmap, Forall_forall. intros y Hy. cbn.
    apply strcmp_not_lt_bytes_lt.
    + done.
    + by eapply Forall_forall in Hnul.
    + eapply Forall_forall in Hx; [|done]. unfold wp_less in Hx.
      by destruct (CStr.strcmp (m_word y) (m_word x)).
    + intros Heq. apply Hnotin. rewrite Heq. by apply list_elem_of_fmap_2.
Qed.

(** C9, as stated, fails: the index with the two words [a\0b] and [a\0c]
    (a NUL byte inside) is printed through C strings, so both lines show
    the word [a]; the output is not a duplicate-free listing of the
    index. *)
Lemma output_is_sorted_listing_fails : ~ output_is_sorted_listing nul_index.
Proof.
  intros Hclaim.
  destruct (Hclaim _ (emitted_exists nul_index)) as (entries & Hperm & Hout & _).
  assert (output_lines (std_sort wp_less (populate (map_to_list nul_index)))
          = [output_line (WP "a" NEGATIVE); output_line (WP "a" POSITIVE)]) as Hval
    by (vm_compute; reflexivity).
  rewrite Hval in Hout. clear Hval.
  assert (length entries = 2%nat) as Hlen.
  { rewrite Hperm. vm_compute. reflexivity. }
  destruct entries as [|e1 [|e2 [|? ?]]]; try discriminate Hlen.
  assert (e1 ∈ map_to_list nul_index) as He1 by (rewrite <- Hperm; by left).
  injection Hout as Hline _.
  apply elem_of_map_to_list' in He1.
  destruct e1 as [w p]. cbn [fst snd] in He1.
  unfold nul_index in He1.
  apply lookup_insert_Some in He1 as [[<- <-]|[_ He1]]; [vm_compute in Hline; discriminate|].
  apply lookup_insert_Some in He1 as [[<- <-]|[_ He1]]; [vm_compute in Hline; discriminate|].
  by rewrite lookup_empty in He1.
Qed.

(** C9, amended: for every final word index whose words contain no NUL
    byte, each emitted output is the sequence of lines
    [word<TAB>polarity-name<newline>] of the entries of the index, with
    polarity-name one of the literals [positive], [negative], [neutral],
    in strictly ascending byte-wise lexicographic order of the words (so
    no word appears twice). *)
Theorem output_sorted_without_nul (w2p : gmap string Polarity) (out : list string) :
  map_Forall (fun w _ => nul_free w = true) w2p ->
  emitted w2p out ->
  sorted_listing w2p out /\
  forall p, polarity_name p ∈ [positive; negative; neutral].
Proof.
  intros Hnul (order & wpv & Horder & [Hperm Hsorted] & ->).
  unfold iteration_of in Horder.
  assert (Forall (fun e : string * Polarity => nul_free e.1 = true) order) as Horder_nul.
  { apply Forall_forall. intros [w p] Hin. rewrite Horder in Hin.
    apply elem_of_map_to_list in Hin. by apply (Hnul w p). }
  assert (map wp_entry wpv ≡ₚ order) as Hentries.
  { rewrite <- (populate_nul_free order Horder_nul). by apply fmap_Permutation. }
  split.
  - exists (map wp_entry wpv). split; [by rewrite Hentries|]. split.
    + unfold output_lines. rewrite map_map. done.
    + rewrite map_map. change (fun x => (wp_entry x).1) with m_word.
      apply sorted_words_strict.
      * done.
      * change m_word with (fun x => (wp_entry x).1). rewrite <- map_map.
        assert (map fst (map wp_entry wpv) ≡ₚ map fst (map_to_list w2p)) as ->
          by (apply fmap_Permutation; by rewrite Hentries).
        apply NoDup_fst_map_to_list.
      * apply Forall_forall. intros wp Hwp.
        assert (wp_entry wp ∈ order) as Hin.
        { rewrite <- Hentries. by apply (list_elem_of_fmap_2 wp_entry). }
        eapply Forall_forall in Horder_nul; [|exact Hin]. done.
  - intros []; cbn; set_solver.
Qed.

(** ** The statements at sample inputs *)



Lemma merge_idempotent_and_seeds_kept_witness :
  iteration_of sample_labeling (map_to_list sample_labeling) /\
  merge_terms sample_vecid2word (map_to_list sample_labeling) sample_seed_index
  = Some sample_final_index /\
  (forall order', iteration_of sample_labeling order' ->
                  merge_terms sample_vecid2word order' sample_final_index
                  = Some sample_final_index) /\
  (forall w p, sample_seed_index !! w = Some p ->
               sample_final_index !! w = Some p /\
               forall out, emitted sample_final_index out ->
                           output_line (WP (CStr.c_str w) p) ∈ out).
Proof.
  assert (iteration_of sample_labeling (map_to_list sample_labeling)) as Horder
    by (unfold iteration_of; reflexivity).
  assert (merge_terms sample_vecid2word (map_to_list sample_labeling) sample_seed_index
          = Some sample_final_index) as Hrun by (vm_compute; reflexivity).
  split; [exact Horder|]. split; [exact Hrun|].
  exact (merge_idempotent_and_seeds_kept _ _ _ _ _ Horder Hrun).
Defined.

Lemma sample_output_emitted : emitted sample_final_index sample_output.
Proof.
  replace sample_output
    with (output_lines (std_sort wp_less (populate (map_to_list sample_final_index))))
    by (vm_compute; reflexivity).
  apply emitted_exists.
Qed.

Lemma sample_final_index_nul_free :
  map_Forall (fun w _ => nul_free w = true) sample_final_index.
Proof.
  unfold sample_final_index.
  repeat (apply map_Forall_insert_2; [reflexivity|]).
  apply map_Forall_empty.
Qed.

Lemma output_sorted_without_nul_witness :
  map_Forall (fun w _ => nul_free w = true) sample_final_index /\
  emitted sample_final_index sample_output /\
  sorted_listing sample_final_index sample_output /\
  forall p, polarity_name p ∈ [positive; negative; neutral].
Proof.
  split; [exact sample_final_index_nul_free|].
  split; [exact sample_output_emitted|].
  exact (output_sorted_without_nul _ _ sample_final_index_nul_free sample_output_emitted).
Defined.

Lemma seed_without_vector_is_output_witness :
  sample_seed_index !! "zebra" = Some NEGATIVE /\
  sample_word2vecid !! "zebra" = None /\
  (forall order vecid pol,
      iteration_of sample_seed_index order ->
      project_seeds sample_word2vecid order !! vecid = Some pol ->
      exists w', w' <> "zebra" /\ sample_word2vecid !! w' = Some vecid /\
                 sample_seed_index !! w' = Some pol) /\
  sample_final_index !! "zebra" = Some NEGATIVE /\
  output_line (WP (CStr.c_str "zebra") NEGATIVE) ∈ sample_output.
Proof.
  assert (sample_seed_index !! "zebra" = Some NEGATIVE) as Hseed
    by (vm_compute; reflexivity).
  assert (sample_word2vecid !! "zebra" = None) as Hnovec by (vm_compute; reflexivity).
  destruct (seed_without_vector_is_output sample_word2vecid sample_vecid2word
              sample_seed_index "zebra" NEGATIVE Hseed Hnovec) as [Hdropped Hkept].
  destruct (Hkept (map_to_list sample_labeling) sample_final_index) as [Hfinal Hout];
    [vm_compute; reflexivity|].
  split; [exact Hseed|]. split; [exact Hnovec|]. split; [exact Hdropped|].
  split; [exact Hfinal|]. exact (Hout _ sample_output_emitted).
Defined.

(** ** Further facts about the loaders and the output *)


(** A file that ends right after its declaration line is rejected when
    the declared vector size is not zero: [irow] is still 0 then. *)
Example header_only_rejected :
  exists g', read_vectors decimal_runtime (Some (IfStream ["3 2"] false)) true true
               initial_globals = Returned 1 g'.
Proof. eexists. vm_compute. reflexivity. Qed.

Example scenario_vectors_loaded :
  exists g', read_vectors decimal_runtime (Some scenario_vectors) true true
               initial_globals = Returned 0 g' /\
             word2vecid g' = sample_word2vecid /\
             vecid2word g' = sample_vecid2word.
Proof. eexists. repeat split; vm_compute; reflexivity. Qed.

Example scenario_seeds_loaded :
  read_seed_set (Some scenario_seeds) initial_globals
  = Returned 0 (Globals ∅ ∅ (<["good" := POSITIVE]> (<["bad" := NEGATIVE]> ∅)) Arma.reset).
Proof. vm_compute. reflexivity. Qed.

(** [output_terms], run with any iteration order of the labeling, writes
    a possible output of the index it leaves in [word2pol]. *)
Lemma output_terms_emitted order_v2p g g' out :
  output_terms order_v2p map_to_list (std_sort wp_less) g = Some (g', out) ->
  merge_terms (vecid2word g) order_v2p (word2pol g) = Some (word2pol g') /\
  emitted (word2pol g') out.
Proof.
  unfold output_terms.
  destruct (merge_terms _ _ _) as [w2p|]; [|done].
  cbn. intros [= <- <-]. split; [done|]. apply emitted_exists.
Qed.

(** * Further properties *)

(** ** Trimming and downcasing *)

Lemma isspace_tolower c : CStr.isspace (CStr.tolower c) = CStr.isspace c.
Proof. destruct c as [[] [] [] [] [] [] [] []]; reflexivity. Qed.

Lemma tolower_idemp c : CStr.tolower (CStr.tolower c) = CStr.tolower c.
Proof. destruct c as [[] [] [] [] [] [] [] []]; reflexivity. Qed.

Lemma lower_idemp s : lower (lower s) = lower s.
Proof.
  unfold lower. induction s as [|c s IH]; [done|].
  cbn. by rewrite tolower_idemp, IH.
Qed.

Lemma lower_length s : String.length (lower s) = String.length s.
Proof. unfold lower. induction s as [|c s IH]; [done|]. cbn. by rewrite IH. Qed.

Lemma head_blank_lower s : head_blank (lower s) = head_blank s.
Proof. destruct s as [|c s]; [done|]. apply isspace_tolower. Qed.

Lemma last_blank_lower s : last_blank (lower s) = last_blank s.
Proof.
  unfold lower. induction s as [|c s IH]; [done|].
  destruct s as [|d s]; [apply isspace_tolower|]. exact IH.
Qed.

Lemma ltrim_head s : head_blank (CStr.ltrim s) = false.
Proof.
  induction s as [|c s IH]; [done|]. cbn [CStr.ltrim].
  destruct (CStr.isspace c) eqn:Hc; [done|]. exact Hc.
Qed.

Lemma ltrim_id s : head_blank s = false -> CStr.ltrim s = s.
Proof. destruct s as [|c s]; [done|]. cbn. by intros ->. Qed.

Lemma ltrim_length s : (String.length (CStr.ltrim s) <= String.length s)%nat.
Proof.
  induction s as [|c s IH]; [done|]. cbn [CStr.ltrim].
  destruct (CStr.isspace c); cbn; lia.
Qed.

Lemma ltrim_last s : last_blank s = false -> last_blank (CStr.ltrim s) = false.
Proof.
  induction s as [|c s IH]; [done|]. cbn [CStr.ltrim]. intros Hlast.
  destruct (CStr.isspace c) eqn:Hc; [|done].
  apply IH. destruct s as [|d s]; [done|]. exact Hlast.
Qed.

Lemma rtrim_last s : last_blank (CStr.rtrim s) = false.
Proof.
  induction s as [|c s IH]; [done|]. cbn [CStr.rtrim].
  destruct (CStr.rtrim s) as [|d t] eqn:Ht.
  - destruct (CStr.isspace c) eqn:Hc; [done|]. exact Hc.
  - exact IH.
Qed.

Lemma rtrim_id s : last_blank s = false -> CStr.rtrim s = s.
Proof.
  induction s as [|c s IH]; [done|]. cbn [CStr.rtrim]. intros Hlast.
  destruct s as [|d s].
  - cbn in *. by rewrite Hlast.
  - rewrite IH by exact Hlast. done.
Qed.

Lemma rtrim_length s : (String.length (CStr.rtrim s) <= String.length s)%nat.
Proof.
  induction s as [|c s IH]; [done|]. cbn [CStr.rtrim].
  destruct (CStr.rtrim s) as [|d t].
  - destruct (CStr.isspace c); cbn; lia.
  - cbn in *. lia.
Qed.

(** X1: the line normalization used by the seed loader gives a string
    without a blank at either end and without an upper-case letter, never
    longer than its argument; normalizing again changes nothing. *)
Theorem normalize_trimmed_lower_idempotent (s : string) :
  head_blank (CStr.normalize s) = false /\
  last_blank (CStr.normalize s) = false /\
  lower (CStr.normalize s) = CStr.normalize s /\
  (String.length (CStr.normalize s) <= String.length s)%nat /\
  CStr.normalize (CStr.normalize s) = CStr.normalize s.
Proof.
  unfold CStr.normalize. fold (lower (CStr.ltrim (CStr.rtrim s))).
  assert (head_blank (lower (CStr.ltrim (CStr.rtrim s))) = false) as Hhead
    by (rewrite head_blank_lower; apply ltrim_head).
  assert (last_blank (lower (CStr.ltrim (CStr.rtrim s))) = false) as Hlast
    by (rewrite last_blank_lower; apply ltrim_last, rtrim_last).
  split; [done|]. split; [done|]. split; [apply lower_idemp|]. split.
  - rewrite lower_length. pose proof (ltrim_length (CStr.rtrim s)).
    pose proof (rtrim_length s). lia.
  - rewrite (rtrim_id _ Hlast), (ltrim_id _ Hhead).
    fold (lower (lower (CStr.ltrim (CStr.rtrim s)))). apply lower_idemp.
Qed.

(** ** Indices into strings *)

Lemma get_None_length s : forall i, String.get i s = None <-> (String.length s <= i)%nat.
Proof.
  induction s as [|c s IH]; intros [|i]; cbn; try (split; [lia|done]).
  - split; [done|lia].
  - rewrite IH. lia.
Qed.

Lemma incr_small x : 0 <= x < SizeT.npos -> SizeT.incr x = x + 1.
Proof.
  unfold SizeT.incr, SizeT.npos. intros Hx. apply Z.mod_small. lia.
Qed.

Lemma find_from_cases c s : forall i,
  (CStr.find_from c s i = SizeT.npos /\ has_char c s = false) \/
  (exists k, CStr.find_from c s i = i + Z.of_nat k /\
             String.get k s = Some c /\
             forall j, (j < k)%nat -> String.get j s <> Some c).
Proof.
  induction s as [|d s IH]; intros i; cbn [CStr.find_from has_char].
  - by left.
  - destruct (Ascii.eqb_spec d c) as [->|Hne].
    + right. exists 0%nat. split; [lia|]. split; [done|]. lia.
    + destruct (IH (i + 1)) as [[Hnone Hno]|(k & Hk & Hget & Hfirst)].
      * by left.
      * right. exists (S k). split; [lia|]. split; [done|].
        intros [|j] Hj; cbn; [congruence|]. apply Hfirst. lia.
Qed.

Lemma back_over_blanks_spec s : forall pos,
  let b := CStr.back_over_blanks s pos in
  (b <= pos)%nat /\
  ((0 < b)%nat -> CStr.isspace (CStr.char_at s b) = false) /\
  ((0 < pos)%nat -> CStr.isspace (CStr.char_at s pos) = true -> (b < pos)%nat).
Proof.
  induction pos as [|pos (Hle & Hstop & _)]; cbn zeta; cbn [CStr.back_over_blanks].
  - split; [lia|]. split; lia.
  - destruct (CStr.isspace (CStr.char_at s (S pos))) eqn:Hc.
    + split; [lia|]. split; [done|]. lia.
    + split; [lia|]. split; [done|]. done.
Qed.

Lemma substr0_split s : forall n,
  (String.substring 0 n s ++ CStr.drop_str n s)%string = s.
Proof.
  induction s as [|c s IH]; intros [|n]; try reflexivity.
  change (String c (String.substring 0 n s ++ CStr.drop_str n s)%string = String c s).
  f_equal. apply IH.
Qed.

Lemma substr0_nonempty s n : s <> EmptyString -> String.substring 0 (S n) s <> EmptyString.
Proof. destruct s; [done|]. done. Qed.


Lemma has_char_substr0 c s : forall n,
  (forall j, (j < n)%nat -> String.get j s <> Some c) ->
  has_char c (String.substring 0 n s) = false.
Proof.
  induction s as [|d s IH]; intros [|n] Hfirst; cbn; try done.
  rewrite IH.
  - destruct (Ascii.eqb_spec d c) as [->|]; [|done].
    by destruct (Hfirst 0%nat); [lia|].
  - intros j Hj. apply (Hfirst (S j)). lia.
Qed.

Lemma last_blank_substr0 s : forall b,
  (b < String.length s)%nat ->
  last_blank (String.substring 0 (S b) s) = CStr.isspace (CStr.char_at s b).
Proof.
  induction s as [|c s IH]; intros b Hb; [cbn in Hb; lia|].
  destruct b as [|b].
  - cbn. by destruct s.
  - cbn in Hb. specialize (IH b ltac:(lia)).
    change (String.substring 0 (S (S b)) (String c s))
      with (String c (String.substring 0 (S b) s)).
    destruct s as [|d s]; [cbn in Hb; lia|].
    exact IH.
Qed.



(** ** Words accepted by the seed loader *)




Lemma char_at_get s k c : String.get k s = Some c -> CStr.char_at s k = c.
Proof. unfold CStr.char_at. by intros ->. Qed.

Lemma get_Some_length s k c : String.get k s = Some c -> (k < String.length s)%nat.
Proof.
  intros Hget. destruct (Nat.lt_ge_cases k (String.length s)) as [|Hge]; [done|].
  apply get_None_length in Hge. congruence.
Qed.



Lemma has_char_get c s : forall k, String.get k s = Some c -> has_char c s = true.
Proof.
  induction s as [|d s IH]; intros [|k]; cbn [String.get has_char]; try done.
  - intros [= ->]. by rewrite Ascii.eqb_refl.
  - intros Hget. rewrite (IH _ Hget). apply orb_true_r.
Qed.







(** ** Words accepted by the vector loader *)

Lemma back_over_blanks_next s : forall pos,
  (CStr.back_over_blanks s pos < pos)%nat ->
  CStr.isspace (CStr.char_at s (S (CStr.back_over_blanks s pos))) = true.
Proof.
  induction pos as [|pos IH]; cbn [CStr.back_over_blanks]; [lia|].
  destruct (CStr.isspace (CStr.char_at s (S pos))) eqn:Hc; [|lia].
  intros _. pose proof (back_over_blanks_spec s pos) as (Hle & _). cbn zeta in Hle.
  destruct (decide (CStr.back_over_blanks s pos = pos)) as [->|Hne]; [done|].
  apply IH. lia.
Qed.

Lemma substr0_length s : forall n,
  String.length (String.substring 0 n s) = Nat.min n (String.length s).
Proof.
  induction s as [|c s IH]; intros [|n]; try reflexivity.
  cbn. by rewrite IH.
Qed.

(** X3: a vector line without a space character (an empty line among
    them) makes the blank scan of the vector loader start with a read of
    [iline[npos]], outside the line, and no other line does (the usual
    build then takes the empty word).  On a line with a space character
    the word the loader takes, unless it reports a missing word, is an
    initial part of the line that is not empty, contains no space
    character and does not end in a blank; the offset handed to the
    number scan is the length of the word, and the byte at that offset is
    a blank.  (Lines are shorter than [npos], as every [std::string]
    is.) *)
Theorem vector_word_shape (iline : string) :
  CStr.size iline < SizeT.npos ->
  (vector_word iline = OutOfRange <-> has_char CStr.SPACE iline = false) /\
  (forall w space_pos,
      vector_word iline = Next (w, space_pos) ->
      has_char CStr.SPACE iline = true /\
      str_prefix w iline /\ vector_word_ok w /\
      space_pos = CStr.size w /\
      CStr.isspace (CStr.char_at iline (String.length w)) = true).
Proof.
  unfold vector_word, CStr.find_first_of, CStr.size. intros Hsize.
  destruct (find_from_cases CStr.SPACE iline 0)
    as [[Hnone Hno]|(k & Hk & Hget & Hfirst)].
  { rewrite Hnone. unfold back_from, CStr.size.
    rewrite (proj2 (Z.ltb_lt _ _) Hsize). cbn [andb mbind flow_bind]. done. }
  rewrite Z.add_0_l in Hk. rewrite Hk.
  pose proof (get_Some_length _ _ _ Hget) as Hklen.
  rewrite (has_char_get _ _ _ Hget).
  unfold back_from, mbind, flow_bind, CStr.size.
  rewrite (proj2 (Z.ltb_ge (Z.of_nat (String.length iline)) (Z.of_nat k))) by lia.
  rewrite andb_false_r, Nat2Z.id.
  pose proof (back_over_blanks_spec iline k) as (Hle & Hstop & Hback).
  pose proof (back_over_blanks_next iline k) as Hnext.
  cbn zeta in *. rewrite (char_at_get _ _ _ Hget) in Hback.
  set (b := CStr.back_over_blanks iline k) in *.
  destruct ((Z.of_nat b =? 0) && CStr.isspace (CStr.char_at iline 0)) eqn:Hcheck;
    [done|].
  split; [done|]. intros w space_pos Hword. split; [done|].
  rewrite incr_small in Hword by lia.
  injection Hword as <- <-.
  assert (0 < k)%nat as Hkpos.
  { destruct k; [|lia]. assert (b = 0%nat) as Hb by lia. rewrite Hb in Hcheck.
    rewrite (char_at_get _ _ _ Hget) in Hcheck. discriminate Hcheck. }
  specialize (Hback Hkpos eq_refl). specialize (Hnext Hback).
  unfold CStr.substr0.
  replace (Z.to_nat (Z.of_nat b + 1)) with (S b) by lia.
  assert (String.length (String.substring 0 (S b) iline) = S b) as Hlen
    by (rewrite substr0_length; lia).
  split; [exists (CStr.drop_str (S b) iline); by rewrite substr0_split|].
  split; [|split; [rewrite Hlen; lia|by rewrite Hlen]].
  split; [apply substr0_nonempty; intros Hs; by rewrite Hs in Hget|].
  split; [apply has_char_substr0; intros j Hj; apply Hfirst; lia|].
  rewrite last_blank_substr0 by lia.
  destruct b; [|apply Hstop; lia].
  by destruct (CStr.isspace (CStr.char_at iline 0)).
Qed.

Lemma vector_word_shape_witness :
  CStr.size "good 1.0 0.0" < SizeT.npos /\
  has_char CStr.SPACE "good 1.0 0.0" = true /\
  vector_word_ok "good" /\
  CStr.isspace (CStr.char_at "good 1.0 0.0" 4) = true.
Proof.
  assert (CStr.size "good 1.0 0.0" < SizeT.npos) as Hsize by reflexivity.
  assert (vector_word "good 1.0 0.0" = Next ("good", 4)) as Hword
    by (vm_compute; reflexivity).
  destruct (proj2 (vector_word_shape _ Hsize) _ _ Hword) as (Hsp & _ & Hok & _ & Hnext).
  split; [exact Hsize|]. split; [exact Hsp|]. split; [exact Hok|]. exact Hnext.
Defined.

(** ** Reading a well-formed seed line *)

Lemma app_cons_str c x y : (String c x ++ y)%string = String c (x ++ y)%string.
Proof. reflexivity. Qed.

Lemma app_nil_str y : (EmptyString ++ y)%string = y.
Proof. reflexivity. Qed.

Lemma last_blank_app x y : y <> EmptyString -> last_blank (x ++ y) = last_blank y.
Proof.
  intros Hy. induction x as [|c x IH]; [done|].
  rewrite app_cons_str. cbn [last_blank].
  destruct (x ++ y)%string eqn:Hxy; [|exact IH].
  destruct x; [change (y = EmptyString) in Hxy; congruence|].
  rewrite app_cons_str in Hxy. discriminate Hxy.
Qed.

Lemma lower_app x y : lower (x ++ y) = (lower x ++ lower y)%string.
Proof.
  unfold lower. induction x as [|c x IH]; [done|].
  rewrite !app_cons_str. cbn [CStr.map_str]. rewrite app_cons_str. by rewrite IH.
Qed.

Lemma lower_polarity_name p : lower (polarity_name p) = polarity_name p.
Proof. by destruct p. Qed.

Lemma all_blank_lower s : all_blank (lower s) = all_blank s.
Proof.
  unfold lower. induction s as [|c s IH]; [done|].
  cbn. by rewrite isspace_tolower, IH.
Qed.

Lemma has_tab_lower s : has_char CStr.TAB (lower s) = has_char CStr.TAB s.
Proof.
  unfold lower. induction s as [|c s IH]; [done|].
  cbn [CStr.map_str has_char]. rewrite IH. f_equal.
  destruct c as [[] [] [] [] [] [] [] []]; reflexivity.
Qed.

Lemma isspace_not_nul c : CStr.isspace c = true -> CStr.is_nul c = false.
Proof. destruct c as [[] [] [] [] [] [] [] []]; done. Qed.

Lemma find_from_app c x y : forall i,
  has_char c x = false ->
  CStr.find_from c (x ++ String c y) i = i + Z.of_nat (String.length x).
Proof.
  induction x as [|d x IH]; intros i Hx.
  - rewrite app_nil_str. cbn [CStr.find_from String.length].
    rewrite Ascii.eqb_refl. lia.
  - rewrite app_cons_str. cbn [CStr.find_from String.length].
    cbn [has_char] in Hx. apply orb_false_elim in Hx as [Hd Hx].
    rewrite Hd, IH by done. lia.
Qed.

Lemma drop_str_app x y : CStr.drop_str (String.length x) (x ++ y) = y.
Proof. induction x as [|c x IH]; [by destruct y|]. exact IH. Qed.

Lemma drop_str_S_app c x y :
  CStr.drop_str (S (String.length x)) (x ++ String c y) = y.
Proof. induction x as [|d x IH]; [done|]. exact IH. Qed.

Lemma substr0_app x y : String.substring 0 (String.length x) (x ++ y) = x.
Proof.
  induction x as [|c x IH]; [by destruct y|].
  rewrite app_cons_str. cbn [String.length String.substring]. by rewrite IH.
Qed.

Lemma substring_drop s : forall n m,
  String.substring n m s = String.substring 0 m (CStr.drop_str n s).
Proof.
  induction s as [|c s IH]; intros [|n] m; try reflexivity.
  - by destruct m.
  - cbn [String.substring CStr.drop_str]. apply IH.
Qed.

Lemma char_at_drop s : forall n,
  CStr.char_at s n = CStr.char_at (CStr.drop_str n s) 0.
Proof.
  unfold CStr.char_at.
  induction s as [|c s IH]; intros [|n]; try reflexivity. apply IH.
Qed.

Lemma char_at_app_end c x y : CStr.char_at (x ++ String c y) (String.length x) = c.
Proof. rewrite char_at_drop, drop_str_app. reflexivity. Qed.

Lemma last_char_app x y :
  x <> EmptyString ->
  CStr.isspace (CStr.char_at (x ++ y) (String.length x - 1)) = last_blank x.
Proof.
  induction x as [|c x IH]; [done|]. intros _.
  destruct x as [|d x]; [reflexivity|].
  specialize (IH ltac:(done)).
  replace (String.length (String d x) - 1)%nat with (String.length x) in IH
    by (cbn; lia).
  replace (String.length (String c (String d x)) - 1)%nat with (S (String.length x))
    by (cbn; lia).
  rewrite app_cons_str.
  change (CStr.isspace (CStr.char_at (String d x ++ y) (String.length x))
          = last_blank (String d x)).
  exact IH.
Qed.

Lemma head_char_app x y :
  x <> EmptyString ->
  CStr.isspace (CStr.char_at (x ++ y) 0) = head_blank x.
Proof. by destruct x. Qed.

Lemma skip_blanks_app x y : forall pos,
  all_blank x = true -> head_blank y = false ->
  0 <= pos -> pos + Z.of_nat (String.length x) < SizeT.npos ->
  CStr.skip_blanks (x ++ y) pos = pos + Z.of_nat (String.length x).
Proof.
  induction x as [|c x IH]; intros pos Hx Hy Hpos Hbound.
  - rewrite app_nil_str. cbn [String.length]. rewrite Z.add_0_r.
    destruct y as [|d y]; [done|]. cbn [head_blank CStr.skip_blanks] in Hy |- *.
    rewrite Hy. by rewrite andb_false_r.
  - rewrite app_cons_str. cbn [CStr.skip_blanks String.length] in *.
    cbn [all_blank] in Hx. apply andb_prop in Hx as [Hc Hx].
    rewrite Hc, (isspace_not_nul c Hc). cbn [negb andb].
    rewrite incr_small by lia. rewrite IH by (try done; lia). lia.
Qed.

Lemma back_to_last_char s k :
  (0 < k)%nat ->
  CStr.isspace (CStr.char_at s k) = true ->
  CStr.isspace (CStr.char_at s (k - 1)) = false ->
  CStr.back_over_blanks s k = (k - 1)%nat.
Proof.
  destruct k as [|k]; [lia|]. intros _ Hk Hlast.
  cbn [CStr.back_over_blanks]. rewrite Hk.
  replace (S k - 1)%nat with k in * by lia.
  destruct k as [|k]; [done|]. cbn [CStr.back_over_blanks]. by rewrite Hlast.
Qed.

Lemma polarity_at_name s q p rest :
  CStr.drop_str (Z.to_nat q) s = (polarity_name p ++ rest)%string ->
  polarity_at s q = Some p.
Proof.
  intros Hdrop. unfold polarity_at, CStr.compare_eq.
  rewrite (substring_drop s (Z.to_nat q) (String.length positive)),
          (substring_drop s (Z.to_nat q) (String.length negative)),
          (substring_drop s (Z.to_nat q) (String.length neutral)), Hdrop.
  destruct p; destruct rest; vm_compute; reflexivity.
Qed.

Lemma length_app_str x y :
  String.length (x ++ y) = (String.length x + String.length y)%nat.
Proof. induction x as [|c x IH]; [done|]. rewrite app_cons_str. cbn. by rewrite IH. Qed.

Lemma drop_str_add s : forall a b,
  CStr.drop_str (a + b) s = CStr.drop_str b (CStr.drop_str a s).
Proof.
  induction s as [|c s IH]; intros [|a] b; try reflexivity.
  - by destruct b.
  - cbn [Nat.add CStr.drop_str]. apply IH.
Qed.

Lemma last_blank_cons c z : z <> EmptyString -> last_blank (String c z) = last_blank z.
Proof. by destruct z. Qed.

Lemma polarity_name_shape p rest :
  (polarity_name p ++ rest)%string <> EmptyString /\
  head_blank (polarity_name p ++ rest) = false /\
  CStr.is_nul (CStr.char_at (polarity_name p ++ rest) 0) = false.
Proof. by destruct p. Qed.

Lemma length_nonempty s : s <> EmptyString -> (0 < String.length s)%nat.
Proof. destruct s; [done|]. cbn. lia. Qed.

Lemma seed_entry_line_normalize w blanks p rest :
  w <> EmptyString -> head_blank w = false ->
  last_blank (polarity_name p ++ rest) = false ->
  CStr.normalize (seed_entry_line w blanks p rest)
  = seed_entry_line (lower w) (lower blanks) p (lower rest).
Proof.
  intros Hw Hhead Hlast. unfold CStr.normalize, seed_entry_line.
  destruct (polarity_name_shape p rest) as (Hname & _ & _).
  rewrite rtrim_id, ltrim_id.
  - fold (lower (w ++ String CStr.TAB (blanks ++ (polarity_name p ++ rest)))).
    rewrite lower_app.
    change (lower (String CStr.TAB (blanks ++ (polarity_name p ++ rest))))
      with (String CStr.TAB (lower (blanks ++ (polarity_name p ++ rest)))).
    by rewrite !lower_app, lower_polarity_name.
  - destruct w; [done|]. exact Hhead.
  - rewrite last_blank_app by done.
    assert ((blanks ++ (polarity_name p ++ rest))%string <> EmptyString) as Hne.
    { destruct blanks; [exact Hname|done]. }
    rewrite last_blank_cons by exact Hne.
    by rewrite last_blank_app.
Qed.

(** X4: a seed line made of a word, a tab, any run of blanks, a polarity
    name and any further text is accepted, whatever the case of the word,
    and yields the downcased word with that polarity, provided the word
    is not empty, has no tab and no blank at either end, and the line
    does not end in a blank (nothing after the polarity name is looked
    at; the line is shorter than [npos]). *)
Theorem seed_line_reads_entry (w blanks rest : string) (p : Polarity) :
  w <> EmptyString -> head_blank w = false -> last_blank w = false ->
  has_char CStr.TAB w = false ->
  all_blank blanks = true ->
  last_blank (polarity_name p ++ rest) = false ->
  CStr.size (seed_entry_line w blanks p rest) < SizeT.npos ->
  seed_line (seed_entry_line w blanks p rest) = Next (lower w, p).
Proof.
  intros Hw Hhead Hlast Htab Hblanks Hend Hsize.
  unfold seed_line. rewrite seed_entry_line_normalize by done.
  assert (CStr.size (seed_entry_line (lower w) (lower blanks) p (lower rest))
          < SizeT.npos) as Hsize'.
  { rewrite <- seed_entry_line_normalize by done.
    unfold CStr.normalize. rewrite rtrim_id, ltrim_id.
    - fold (lower (seed_entry_line w blanks p rest)).
      unfold CStr.size in *. by rewrite lower_length.
    - unfold seed_entry_line. destruct w; [done|]. exact Hhead.
    - unfold seed_entry_line.
      destruct (polarity_name_shape p rest) as (Hname & _ & _).
      rewrite last_blank_app by done.
      rewrite last_blank_cons by (destruct blanks; [exact Hname|done]).
      by rewrite last_blank_app. }
  clear Hsize Hend. rename Hsize' into Hsize.
  assert (lower w <> EmptyString) as Hw' by (by destruct w).
  rewrite <- head_blank_lower in Hhead. rewrite <- last_blank_lower in Hlast.
  rewrite <- has_tab_lower in Htab. rewrite <- all_blank_lower in Hblanks.
  clear Hw. rename Hw' into Hw.
  set (lw := lower w) in *. set (lb := lower blanks) in *.
  set (lr := lower rest) in *. clearbody lw lb lr. clear w blanks rest.
  destruct (polarity_name_shape p lr) as (Hname & Hnamehead & Hnamenul).
  unfold seed_entry_line in *.
  set (tail := (lb ++ (polarity_name p ++ lr))%string) in *.
  pose proof (length_nonempty _ Hw) as Hlen.
  unfold CStr.size in Hsize.
  rewrite length_app_str in Hsize. cbn [String.length] in Hsize.
  unfold tail in Hsize. rewrite length_app_str in Hsize. fold tail in Hsize.
  unfold CStr.find_first_of. rewrite find_from_app by done. rewrite Z.add_0_l.
  rewrite incr_small by lia.
  replace (Z.to_nat (Z.of_nat (String.length lw) + 1)) with (S (String.length lw))
    by lia.
  rewrite drop_str_S_app.
  set (q := Z.of_nat (String.length lw) + 1 + Z.of_nat (String.length lb)).
  assert (CStr.skip_blanks tail (Z.of_nat (String.length lw) + 1) = q) as Hskip
    by (unfold tail; apply skip_blanks_app; try done; lia).
  rewrite Hskip.
  assert (CStr.drop_str (Z.to_nat q) (lw ++ String CStr.TAB tail)
          = (polarity_name p ++ lr)%string) as Hdrop.
  { replace (Z.to_nat q) with (S (String.length lw) + String.length lb)%nat
      by (unfold q; lia).
    rewrite drop_str_add, drop_str_S_app. unfold tail. apply drop_str_app. }
  rewrite (proj2 (Z.eqb_neq q SizeT.npos)) by (unfold q; lia).
  rewrite (char_at_drop _ (Z.to_nat q)), Hdrop, Hnamenul. cbn [orb].
  rewrite (polarity_at_name _ _ _ _ Hdrop).
  unfold back_from, mbind, flow_bind, CStr.size.
  rewrite (proj2 (Z.ltb_ge (Z.of_nat (String.length (lw ++ String CStr.TAB tail)))
                           (Z.of_nat (String.length lw))))
    by (rewrite length_app_str; lia).
  rewrite andb_false_r, Nat2Z.id.
  rewrite back_to_last_char.
  - rewrite head_char_app, Hhead, andb_false_r by done.
    rewrite incr_small by lia.
    unfold CStr.substr0.
    replace (Z.to_nat (Z.of_nat (String.length lw - 1) + 1)) with (String.length lw)
      by lia.
    by rewrite substr0_app.
  - done.
  - by rewrite char_at_app_end.
  - by rewrite last_char_app.
Qed.

Lemma seed_line_reads_entry_witness :
  seed_line (seed_entry_line "Very Good" " " POSITIVE "ly so") = Next ("very good", POSITIVE).
Proof.
  apply (seed_line_reads_entry "Very Good" " " "ly so" POSITIVE);
    try reflexivity; done.
Defined.

(** ** What a successful load of the vectors guarantees *)

Lemma scan_row_shape rt : forall todo irow icol cline M,
  Arma.n_rows (scan_row rt todo irow icol cline M).2 = Arma.n_rows M /\
  Arma.n_cols (scan_row rt todo irow icol cline M).2 = Arma.n_cols M.
Proof.
  induction todo as [|todo IH]; intros irow icol cline M; cbn [scan_row]; [done|].
  destruct (scan_float rt cline) as [[iwght nchars]|]; [|done].
  destruct (IH (S irow) icol (CStr.drop_str nchars cline) (Arma.set M irow icol iwght))
    as [-> ->]. done.
Qed.

Lemma vector_line_shape rt mrows iline s s' :
  vector_line rt mrows iline s = Next s' ->
  Arma.n_rows (vs_NWE s') = Arma.n_rows (vs_NWE s) /\
  Arma.n_cols (vs_NWE s') = Arma.n_cols (vs_NWE s) /\
  vs_irow s' = mrows.
Proof.
  unfold vector_line, mbind, flow_bind.
  destruct (vector_word iline) as [[w space_pos]| |]; [|done..].
  pose proof (scan_row_shape rt mrows 0 (vs_icol s)
                (CStr.c_str (CStr.drop_str (Z.to_nat space_pos) iline)) (vs_NWE s))
    as Hshape.
  destruct (scan_row _ _ _ _ _ _) as [irow M].
  destruct (irow =? mrows)%nat eqn:Hirow; [|done].
  intros [= <-]. cbn [vs_NWE vs_irow snd] in *.
  apply Nat.eqb_eq in Hirow. by destruct Hshape as [-> ->].
Qed.

Lemma vector_loop_count rt mrows : forall todo ls s s' b,
  vector_loop rt mrows todo ls s = Next (s', b) ->
  exists ws,
    words_of_lines ls ws /\
    length ws = Nat.min todo (length ls) /\
    (vs_word2vecid s', vs_vecid2word s')
    = index_words ws (vs_icol s) (vs_word2vecid s) (vs_vecid2word s) /\
    b = bool_decide (length ls < todo)%nat /\
    Arma.n_rows (vs_NWE s') = Arma.n_rows (vs_NWE s) /\
    Arma.n_cols (vs_NWE s') = Arma.n_cols (vs_NWE s) /\
    vs_irow s' = (if decide (ws = []) then vs_irow s else mrows).
Proof.
  induction todo as [|todo IH]; intros ls s s' b; cbn [vector_loop].
  - intros [= <- <-]. exists []. repeat split; try done. constructor.
  - destruct ls as [|iline rest].
    + intros [= <- <-]. exists []. repeat split; try done. constructor.
    + unfold mbind, flow_bind.
      destruct (vector_line rt mrows iline s) as [s1| |] eqn:Hline; [|done..].
      intros Hloop.
      apply IH in Hloop as (ws & Hws & Hlen & Hmaps & Hb & Hrows & Hcols & Hirow).
      pose proof (vector_line_shape _ _ _ _ _ Hline) as (Hrows1 & Hcols1 & Hirow1).
      apply vector_line_Next in Hline as (w & sp & Hword & Hw2v & Hv2w & Hicol).
      exists (w :: ws). split; [constructor; [eauto|done]|].
      split; [cbn [length]; lia|].
      split; [cbn [index_words]; by rewrite Hmaps, Hw2v, Hv2w, Hicol|].
      split.
      { rewrite Hb. cbn [length]. apply bool_decide_ext. lia. }
      split; [congruence|]. split; [congruence|].
      rewrite Hirow. rewrite (decide_False (P := w :: ws = [])) by done.
      destruct (decide (ws = [])); [exact Hirow1|done].
Qed.

Lemma index_words_size ws :
  size (index_words ws 0 ∅ ∅).2 = length ws.
Proof.
  destruct (index_words_lookup ws 0 ∅ ∅) as [_ Hv]. cbn zeta in Hv.
  assert ((index_words ws 0 ∅ ∅).2 = map_seq 0 ws) as ->.
  { apply map_eq. intros i. rewrite Hv, lookup_empty, lookup_map_seq_0.
    rewrite decide_True by lia. by rewrite Nat.sub_0_r. }
  rewrite <- length_map_to_list, map_to_list_seq.
  rewrite length_zip_with, length_seq. lia.
Qed.

(** X5: a successful load of an embedding file (at program start) leaves
    a matrix of exactly the declared shape, whichever normalizations are
    requested, and a vocabulary with as many ids as vector lines were
    read: the smaller of the declared number and the number of lines
    after the declaration line.  Unless the declared vector size is 0, at
    least one vector line was read. *)
Theorem read_vectors_success_shape (rt : runtime) (is_ : ifstream)
    (l m : bool) (g' : globals) :
  read_vectors rt (Some is_) l m initial_globals = Returned 0 g' ->
  exists ncolumns mrows,
    scan_header (header_line is_) = Some (ncolumns, mrows) /\
    Arma.n_rows (NWE g') = mrows /\
    Arma.n_cols (NWE g') = ncolumns /\
    size (vecid2word g') = Nat.min ncolumns (length (vector_lines is_)) /\
    (mrows <> 0%nat -> (0 < size (vecid2word g'))%nat) /\
    (read_error is_ = true -> (ncolumns <= length (vector_lines is_))%nat).
Proof.
  unfold read_vectors, scan_vectors, header_line, vector_lines.
  destruct (skip_empty_lines (lines is_)) as [iline rest]. cbn [fst snd].
  destruct (scan_header iline) as [[ncolumns mrows]|]; [|done].
  unfold mbind, flow_bind.
  destruct (vector_loop _ _ _ _ _) as [[s b]| |] eqn:Hloop; [|done..].
  apply vector_loop_count in Hloop
    as (ws & _ & Hlen & Hmaps & Hb & Hrows & Hcols & Hirow).
  cbn [vs_word2vecid vs_vecid2word vs_NWE vs_icol vs_irow
       word2vecid vecid2word initial_globals Arma.set_size
       Arma.n_rows Arma.n_cols] in *.
  destruct (b && read_error is_) eqn:Herr; [done|].
  destruct (negb (vs_irow s =? mrows)%nat) eqn:Hcheck; [done|].
  intros [= <-]. cbn [NWE vecid2word].
  destruct (normalize_vectors_shape l m (vs_NWE s)) as [-> ->].
  assert (size (vs_vecid2word s) = length ws) as Hsize.
  { pose proof (index_words_size ws) as Hsz. by rewrite <- Hmaps in Hsz. }
  exists ncolumns, mrows. rewrite Hsize, Hlen.
  split; [done|]. split; [done|]. split; [done|]. split; [done|]. split.
  - intros Hm. apply negb_false_iff, Nat.eqb_eq in Hcheck.
    destruct (decide (ws = [])) as [->|Hne]; [congruence|].
    rewrite <- Hlen. destruct ws; [done|cbn; lia].
  - intros Hre. rewrite Hre, andb_true_r in Herr. subst b.
    apply bool_decide_eq_false in Herr. lia.
Qed.

Lemma read_vectors_success_shape_witness :
  read_vectors decimal_runtime (Some truncated_vectors) true true initial_globals
  = Returned 0 (loaded truncated_vectors) /\
  Arma.n_cols (NWE (loaded truncated_vectors)) = 3%nat /\
  size (vecid2word (loaded truncated_vectors)) = 1%nat.
Proof.
  assert (read_vectors decimal_runtime (Some truncated_vectors) true true initial_globals
          = Returned 0 (loaded truncated_vectors)) as Hrun by (vm_compute; reflexivity).
  split; [exact Hrun|].
  destruct (read_vectors_success_shape _ _ _ _ _ Hrun)
    as (ncolumns & mrows & Hheader & _ & Hcols & Hsize & _).
  assert (ncolumns = 3%nat) as -> by (vm_compute in Hheader; congruence).
  split; [exact Hcols|]. rewrite Hsize. reflexivity.
Defined.

Lemma first_pos_is_Some w ws : forall k, w ∈ ws -> is_Some (first_pos w ws k).
Proof.
  induction ws as [|x ws IH]; intros k Hin; [by apply elem_of_nil in Hin|].
  cbn [first_pos]. case_decide; [eauto|].
  apply IH. apply elem_of_cons in Hin as [->|Hin]; [done|exact Hin].
Qed.

(** X6: after a successful load of an embedding file (at program start)
    no two words share an id, every id of the word-to-id map is below the
    vocabulary size, and every vocabulary word resolves: the word of any
    id [i] maps to an id [j <= i] whose word it is. *)
Theorem vocabulary_ids_resolve (rt : runtime) (is_ : ifstream)
    (l m : bool) (g' : globals) :
  read_vectors rt (Some is_) l m initial_globals = Returned 0 g' ->
  (forall w1 w2 i, word2vecid g' !! w1 = Some i -> word2vecid g' !! w2 = Some i ->
                   w1 = w2) /\
  (forall w i, word2vecid g' !! w = Some i -> (i < size (vecid2word g'))%nat) /\
  (forall i w, vecid2word g' !! i = Some w ->
               exists j, (j <= i)%nat /\ word2vecid g' !! w = Some j /\
                         vecid2word g' !! j = Some w).
Proof.
  unfold read_vectors.
  destruct (scan_vectors rt is_ initial_globals) as [s| |] eqn:Hscan; [|done..].
  intros [= <-]. cbn [word2vecid vecid2word].
  apply scan_vectors_words in Hscan as (ws & _ & Hmaps).
  cbn [word2vecid vecid2word initial_globals] in Hmaps.
  destruct (index_words_lookup ws 0 ∅ ∅) as [Hw Hv].
  pose proof (index_words_size ws) as Hsize.
  rewrite <- Hmaps in Hw, Hv, Hsize. cbn [fst snd] in Hw, Hv, Hsize.
  assert (forall i, vs_vecid2word s !! i = ws !! i) as Hv'.
  { intros i. rewrite Hv, lookup_empty, decide_True by lia. by rewrite Nat.sub_0_r. }
  assert (forall w i, vs_word2vecid s !! w = Some i <-> first_index w ws i) as Hfirst.
  { intros w i. rewrite Hw, lookup_empty, first_pos_spec, Nat.sub_0_r. intuition lia. }
  split; [|split].
  - intros w1 w2 i [H1 _]%Hfirst [H2 _]%Hfirst. congruence.
  - intros w i [Hi _]%Hfirst. rewrite Hsize. by eapply lookup_lt_Some.
  - intros i w Hi. rewrite Hv' in Hi.
    destruct (first_pos_is_Some w ws 0) as [j Hj].
    { by eapply list_elem_of_lookup_2. }
    assert (vs_word2vecid s !! w = Some j) as Hwj by (by rewrite Hw, lookup_empty).
    pose proof (proj1 (Hfirst w j) Hwj) as [Hjw Hmin].
    exists j. split; [|split; [done|by rewrite Hv']].
    destruct (Nat.le_gt_cases j i) as [|Hlt]; [done|]. by destruct (Hmin i Hlt).
Qed.

Lemma vocabulary_ids_resolve_witness :
  read_vectors decimal_runtime (Some repeated_vectors) true true initial_globals
  = Returned 0 (loaded repeated_vectors) /\
  exists j, (j <= 1)%nat /\ word2vecid (loaded repeated_vectors) !! "a" = Some j /\
            vecid2word (loaded repeated_vectors) !! j = Some "a".
Proof.
  assert (read_vectors decimal_runtime (Some repeated_vectors) true true initial_globals
          = Returned 0 (loaded repeated_vectors)) as Hrun by (vm_compute; reflexivity).
  split; [exact Hrun|].
  destruct (vocabulary_ids_resolve _ _ _ _ _ Hrun) as (_ & _ & Hresolve).
  apply Hresolve. vm_compute. reflexivity.
Defined.

(** ** What the loaders leave alone *)

Lemma read_vectors_code rt a_file l m g c g' :
  read_vectors rt a_file l m g = Returned c g' -> c = 0 \/ c = 1.
Proof.
  unfold read_vectors, vectors_error_exit.
  destruct a_file as [is_|]; [|intros [= <- _]; by right].
  destruct (scan_vectors rt is_ g) as [s| |]; [| |done].
  - intros [= <- _]. by left.
  - intros [= <- _]. by right.
Qed.

Lemma read_seed_set_code a_file g c g' :
  read_seed_set a_file g = Returned c g' -> c = 0 \/ c = 1.
Proof.
  unfold read_seed_set, seed_error_exit.
  destruct a_file as [is_|]; [|intros [= <- _]; by right].
  destruct (seed_loop (lines is_) (word2pol g)) as [w2p| |]; [| |done].
  - destruct (read_error is_); intros [= <- _]; [by right|by left].
  - intros [= <- _]. by right.
Qed.

(** X7: each loader returns status 0 or 1 and touches only what it
    loads: [read_vectors] never changes the word-to-polarity map, and
    [read_seed_set] never changes the vocabulary maps or the matrix.  A
    successful [read_seed_set] read its stream to the end without a read
    error, and keeps every entry the map already had. *)
Theorem loaders_frame :
  (forall rt a_file l m g c g',
      read_vectors rt a_file l m g = Returned c g' ->
      (c = 0 \/ c = 1) /\ word2pol g' = word2pol g) /\
  (forall a_file g c g',
      read_seed_set a_file g = Returned c g' ->
      (c = 0 \/ c = 1) /\
      word2vecid g' = word2vecid g /\ vecid2word g' = vecid2word g /\
      NWE g' = NWE g /\
      (c = 0 ->
       (exists is_, a_file = Some is_ /\ read_error is_ = false) /\
       forall w p, word2pol g !! w = Some p -> word2pol g' !! w = Some p)).
Proof.
  split.
  - intros rt a_file l m g c g'. unfold read_vectors, vectors_error_exit.
    destruct a_file as [is_|]; [|intros [= <- <-]; by split; [right|]].
    destruct (scan_vectors rt is_ g) as [s| |]; [| |done].
    + intros [= <- <-]. by split; [left|].
    + intros [= <- <-]. by split; [right|].
  - intros a_file g c g'. unfold read_seed_set, seed_error_exit.
    destruct a_file as [is_|]; [|intros [= <- <-]; by split; [right|]].
    destruct (seed_loop (lines is_) (word2pol g)) as [w2p| |] eqn:Hloop; [| |done].
    + destruct (read_error is_) eqn:Herr.
      * intros [= <- <-]. by split; [right|].
      * intros [= <- <-]. split; [by left|]. repeat split; try done.
        { by exists is_. }
        intros w p Hw. cbn [word2pol].
        by rewrite (seed_loop_first_wins _ _ _ Hloop w), Hw.
    + intros [= <- <-]. by split; [right|].
Qed.

(** ** Empty input *)

Lemma skip_empty_lines_all_empty ls :
  Forall (fun iline => iline = EmptyString) ls ->
  skip_empty_lines ls = (EmptyString, []).
Proof.
  induction 1 as [|iline rest -> _ IH]; [done|]. exact IH.
Qed.

Lemma seed_loop_all_empty ls w2p :
  Forall (fun iline => iline = EmptyString) ls -> seed_loop ls w2p = Next w2p.
Proof.
  induction 1 as [|iline rest -> _ IH]; [done|]. exact IH.
Qed.

(** X8: on a file without any non-empty line (in particular an empty
    file) [read_vectors] fails, there is no declaration line, and leaves
    the vocabulary and the matrix empty; on such a file [read_seed_set]
    succeeds and leaves the whole state as it was. *)
Theorem loaders_on_empty_input (ls : list string) :
  Forall (fun iline => iline = EmptyString) ls ->
  (forall rt err l m g,
      read_vectors rt (Some (IfStream ls err)) l m g
      = Returned 1 (Globals ∅ ∅ (word2pol g) Arma.reset)) /\
  (forall g, read_seed_set (Some (IfStream ls false)) g = Returned 0 g).
Proof.
  intros Hempty. split.
  - intros rt err l m g. unfold read_vectors, scan_vectors. cbn [lines].
    by rewrite (skip_empty_lines_all_empty _ Hempty).
  - intros g. unfold read_seed_set. cbn [lines read_error].
    rewrite (seed_loop_all_empty _ _ Hempty). by destruct g.
Qed.

Lemma loaders_on_empty_input_witness :
  Forall (fun iline => iline = EmptyString) [EmptyString; EmptyString] /\
  read_seed_set (Some (IfStream [EmptyString; EmptyString] false)) initial_globals
  = Returned 0 initial_globals.
Proof.
  assert (Forall (fun iline => iline = EmptyString) [EmptyString; EmptyString])
    as Hempty by (repeat constructor).
  split; [exact Hempty|].
  apply (loaders_on_empty_input _ Hempty).
Defined.

(** ** More on the normalizers *)

Section normalizers.
Open Scope R_scope.
Implicit Types (M : Arma.mat) (r c : nat).

Lemma rsum_term_le (f : nat -> R) l j :
  (forall i, 0 <= f i) -> j ∈ l -> f j <= rsum f l 0.
Proof.
  intros Hf. induction l as [|i l IH]; intros Hj; [by apply elem_of_nil in Hj|].
  rewrite rsum_cons. pose proof (Hf i). pose proof (rsum_nonneg f l Hf).
  apply elem_of_cons in Hj as [->|Hj]; [lra|]. specialize (IH Hj). lra.
Qed.

Lemma entry_le_col_norm M r c :
  (r < Arma.n_rows M)%nat -> Rabs (Arma.at_ M r c) <= col_norm M c.
Proof.
  intros Hr. unfold col_norm. rewrite <- sqrt_Rsqr_abs.
  apply sqrt_le_1_alt. rewrite sum_squares_rsum. unfold Rsqr.
  apply (rsum_term_le (fun j => Arma.at_ M j c * Arma.at_ M j c)).
  - intros i. nra.
  - apply elem_of_seq. lia.
Qed.

Lemma col_norm_nonneg M c : 0 <= col_norm M c.
Proof. apply sqrt_pos. Qed.

Lemma mean_row_centered M r :
  (0 < Arma.n_cols M)%nat -> (r < Arma.n_rows M)%nat ->
  Arma.mean_row (_mean_normalize M) r = 0.
Proof.
  intros Hcols Hrow. destruct (mean_normalize_shape M) as [Hr Hc].
  rewrite mean_row_rsum, Hc.
  rewrite (rsum_ext _ (fun j => Arma.at_ M r j - Arma.mean_row M r)).
  - rewrite rsum_shift, length_seq, mean_row_rsum.
    assert (INR (Arma.n_cols M) <> 0) by (apply not_0_INR; lia).
    by field.
  - intros j Hj. apply elem_of_seq in Hj. apply mean_normalize_entry; lia.
Qed.

End normalizers.

(** X9: after length normalization no entry of the matrix exceeds 1 in
    absolute value (exact arithmetic): an entry of a column with non-zero
    norm is the old entry divided by a norm that is at least as large,
    and a column of norm zero holds only zeros. *)
Theorem length_normalize_entries_bounded (M : Arma.mat) (r c : nat) :
  (r < Arma.n_rows M)%nat -> (c < Arma.n_cols M)%nat ->
  (Rabs (Arma.at_ (_length_normalize M) r c) <= 1)%R.
Proof.
  intros Hr Hc. rewrite length_normalize_entry by done.
  pose proof (entry_le_col_norm M r c Hr) as Hle.
  pose proof (col_norm_nonneg M c) as Hpos.
  destruct (Req_dec_T (col_norm M c) 0) as [Hz|Hnz].
  - rewrite Hz in Hle. lra.
  - unfold Rdiv. rewrite Rabs_mult, Rabs_inv.
    rewrite (Rabs_pos_eq (col_norm M c)) by done.
    apply (Rmult_le_reg_r (col_norm M c)); [lra|].
    rewrite Rmult_assoc, Rinv_l by done. lra.
Qed.

Lemma length_normalize_entries_bounded_witness :
  (0 < Arma.n_rows sample_matrix)%nat /\ (0 < Arma.n_cols sample_matrix)%nat /\
  (Rabs (Arma.at_ (_length_normalize sample_matrix) 0 0) <= 1)%R.
Proof.
  assert (0 < Arma.n_rows sample_matrix)%nat as Hr by (cbn; lia).
  assert (0 < Arma.n_cols sample_matrix)%nat as Hc by (cbn; lia).
  split; [exact Hr|]. split; [exact Hc|].
  exact (length_normalize_entries_bounded sample_matrix 0 0 Hr Hc).
Defined.

(** X10: mean normalization is idempotent (exact arithmetic): a second
    pass leaves every entry as it is, for a matrix of any shape.  And
    whenever the mean pass of [read_vectors] is switched on, every row of
    the stored matrix has mean 0, whether or not the length pass ran
    before it (the matrix having at least one column). *)
Theorem mean_normalize_idempotent (M : Arma.mat) :
  Arma.same (_mean_normalize (_mean_normalize M)) (_mean_normalize M) /\
  forall (l : bool) r,
    (0 < Arma.n_cols M)%nat -> (r < Arma.n_rows M)%nat ->
    Arma.mean_row (normalize_vectors l false M) r = 0%R.
Proof.
  split.
  - destruct (mean_normalize_shape M) as [Hrows Hcols].
    destruct (mean_normalize_shape (_mean_normalize M)) as [Hrows' Hcols'].
    repeat split; [done..|].
    intros r c Hr Hc. rewrite Hrows', Hrows in Hr. rewrite Hcols', Hcols in Hc.
    rewrite (mean_normalize_entry (_mean_normalize M)) by lia.
    rewrite mean_row_centered by lia. lra.
  - intros l r Hcols Hr. unfold normalize_vectors.
    destruct l; [by apply mean_row_centered|].
    destruct (length_normalize_shape M) as [Hrows' Hcols'].
    apply mean_row_centered; lia.
Qed.

(** ** The id-keyed labeling built by [main] *)

Lemma project_fold_keeps (w2v : gmap string nat) order :
  forall (acc : gmap nat Polarity) vecid pol,
  acc !! vecid = Some pol ->
  fold_left (project_seed w2v) order acc !! vecid = Some pol.
Proof.
  induction order as [|[w0 p0] rest IH]; intros acc vecid pol Hacc; [done|].
  cbn [fold_left]. apply IH. unfold project_seed. cbn [fst snd].
  destruct (w2v !! w0); [|done]. by apply lookup_emplace_Some.
Qed.

Lemma project_fold_finds (w2v : gmap string nat) order :
  (forall w1 w2 i, w2v !! w1 = Some i -> w2v !! w2 = Some i -> w1 = w2) ->
  NoDup order.*1 ->
  forall (acc : gmap nat Polarity) w p vecid,
  (forall w' p' i, (w', p') ∈ order -> w2v !! w' = Some i -> acc !! i = None) ->
  (w, p) ∈ order -> w2v !! w = Some vecid ->
  fold_left (project_seed w2v) order acc !! vecid = Some p.
Proof.
  intros Hinj. induction order as [|[w0 p0] rest IH];
    intros Hnodup acc w p vecid Hfresh Hin Hw; [by apply elem_of_nil in Hin|].
  cbn [fmap list_fmap fst] in Hnodup. apply NoDup_cons in Hnodup as [Hw0 Hnodup].
  cbn [fold_left]. apply elem_of_cons in Hin as [[= -> ->]|Hin].
  - apply project_fold_keeps. unfold project_seed. cbn [fst snd]. rewrite Hw.
    rewrite lookup_emplace, (Hfresh w0 p0 vecid) by (done || by left).
    by rewrite decide_True.
  - apply (IH Hnodup _ w p); [|done..].
    intros w' p' i Hin' Hw'. unfold project_seed. cbn [fst snd].
    assert (acc !! i = None) as Hacc by (eapply Hfresh; [by right|done]).
    destruct (w2v !! w0) as [i0|] eqn:Hi0; [|done].
    rewrite lookup_emplace, Hacc. case_decide as Heq; [|done]. subst i0.
    destruct Hw0. rewrite (Hinj w0 w' i Hi0 Hw').
    by apply (list_elem_of_fmap_2 fst _ (w', p')).
Qed.

(** X11: when no two words share a vector id (as after a load), the
    id-keyed labeling that [main] builds from the seed map has, for each
    id, exactly the polarity of the seed word with that id; it does not
    depend on the order in which the hash map is traversed. *)
Theorem project_seeds_lookup (w2v : gmap string nat) (w2p : gmap string Polarity)
    (order : list (string * Polarity)) :
  (forall w1 w2 i, w2v !! w1 = Some i -> w2v !! w2 = Some i -> w1 = w2) ->
  iteration_of w2p order ->
  (forall vecid pol,
      project_seeds w2v order !! vecid = Some pol <->
      exists w, w2v !! w = Some vecid /\ w2p !! w = Some pol) /\
  (forall order', iteration_of w2p order' ->
                  project_seeds w2v order' = project_seeds w2v order).
Proof.
  intros Hinj Horder.
  assert (forall order0, iteration_of w2p order0 ->
            forall vecid pol,
              project_seeds w2v order0 !! vecid = Some pol <->
              exists w, w2v !! w = Some vecid /\ w2p !! w = Some pol) as Hchar.
  { intros order0 Horder0 vecid pol. unfold iteration_of in Horder0. split.
    - intros [Hempty|(w & Hin & Hw)]%project_seeds_origin.
      + by rewrite lookup_empty in Hempty.
      + exists w. split; [done|]. apply elem_of_map_to_list. by rewrite <- Horder0.
    - intros (w & Hw & Hpol). unfold project_seeds.
      apply (project_fold_finds w2v order0 Hinj) with (w := w).
      + rewrite Horder0. apply NoDup_fst_map_to_list.
      + intros. apply lookup_empty.
      + rewrite Horder0. by apply elem_of_map_to_list.
      + done. }
  split; [by apply Hchar|].
  intros order' Horder'. apply map_eq. intros vecid.
  apply option_eq. intros pol. by rewrite !Hchar.
Qed.

Lemma project_seeds_lookup_witness :
  (forall w1 w2 i, sample_word2vecid !! w1 = Some i ->
                   sample_word2vecid !! w2 = Some i -> w1 = w2) /\
  iteration_of sample_seed_index (map_to_list sample_seed_index) /\
  project_seeds sample_word2vecid (map_to_list sample_seed_index) !! 0%nat
  = Some POSITIVE.
Proof.
  assert (forall w1 w2 i, sample_word2vecid !! w1 = Some i ->
                          sample_word2vecid !! w2 = Some i -> w1 = w2) as Hinj.
  { intros w1 w2 i H1 H2. unfold sample_word2vecid in *.
    repeat (apply lookup_insert_Some in H1 as [[<- <-]|[? H1]]);
      repeat (apply lookup_insert_Some in H2 as [[<- ?]|[? H2]]);
      try done; by rewrite ?lookup_empty in *. }
  assert (iteration_of sample_seed_index (map_to_list sample_seed_index)) as Horder
    by (unfold iteration_of; reflexivity).
  split; [exact Hinj|]. split; [exact Horder|].
  apply (project_seeds_lookup _ _ _ Hinj Horder).
  exists "good". split; vm_compute; reflexivity.
Defined.

(** ** The merge of [output_terms] *)

Lemma merge_terms_stops v2w order : forall w2p,
  merge_terms v2w order w2p = None ->
  exists vecid pol, (vecid, pol) ∈ order /\ v2w !! vecid = None.
Proof.
  induction order as [|[vecid0 pol0] rest IH]; intros w2p; cbn [merge_terms]; [done|].
  destruct (v2w !! vecid0) as [word0|] eqn:Hword0.
  - intros (vecid & pol & Hin & Hnone)%IH. exists vecid, pol. split; [by right|done].
  - intros _. exists vecid0, pol0. split; [by left|done].
Qed.

Lemma merge_terms_stops_at v2w order vecid pol : forall w2p,
  (vecid, pol) ∈ order -> v2w !! vecid = None ->
  merge_terms v2w order w2p = None.
Proof.
  induction order as [|[vecid0 pol0] rest IH]; intros w2p Hin Hnone; cbn [merge_terms].
  - by apply elem_of_nil in Hin.
  - apply elem_of_cons in Hin as [[= <- <-]|Hin]; [by rewrite Hnone|].
    destruct (v2w !! vecid0); [by apply IH|done].
Qed.

(** X12: the merge loop of [output_terms] runs into the dereference of
    [end()] exactly when the labeling holds an id without a word in the
    vocabulary; otherwise it yields an index. *)
Theorem merge_terms_undefined_iff (v2w : gmap nat string)
    (order : list (nat * Polarity)) (w2p : gmap string Polarity) :
  merge_terms v2w order w2p = None <->
  exists vecid pol, (vecid, pol) ∈ order /\ v2w !! vecid = None.
Proof.
  revert w2p. induction order as [|[vecid0 pol0] rest IH]; intros w2p;
    cbn [merge_terms].
  - split; [done|]. intros (? & ? & Hin & _). by apply elem_of_nil in Hin.
  - destruct (v2w !! vecid0) as [word0|] eqn:Hword0.
    + rewrite IH. split.
      * intros (vecid & pol & Hin & Hnone). exists vecid, pol. split; [by right|done].
      * intros (vecid & pol & Hin & Hnone).
        apply elem_of_cons in Hin as [[= -> ->]|Hin]; [congruence|].
        by exists vecid, pol.
    + split; [|done]. intros _. exists vecid0, pol0. split; [by left|done].
Qed.

Lemma merge_terms_origin v2w order : forall w2p w2p',
  merge_terms v2w order w2p = Some w2p' ->
  forall w p, w2p' !! w = Some p ->
  w2p !! w = Some p \/
  (w2p !! w = None /\ exists vecid, (vecid, p) ∈ order /\ v2w !! vecid = Some w).
Proof.
  induction order as [|[vecid0 pol0] rest IH]; intros w2p w2p' Hrun w p Hw;
    cbn [merge_terms] in Hrun.
  - injection Hrun as <-. by left.
  - destruct (v2w !! vecid0) as [word0|] eqn:Hword0; [|done].
    destruct (IH _ _ Hrun w p Hw) as [Hacc|[Hacc (vecid & Hin & Hv)]].
    + rewrite lookup_emplace in Hacc.
      destruct (w2p !! w) eqn:Hold; [by left|].
      case_decide; [|done]. injection Hacc as <-. subst word0.
      right. split; [done|]. exists vecid0. split; [by left|done].
    + rewrite lookup_emplace in Hacc.
      destruct (w2p !! w) eqn:Hold; [done|].
      right. split; [done|]. exists vecid. split; [by right|done].
Qed.

Lemma merge_terms_finds v2w order :
  (forall i j w, v2w !! i = Some w -> v2w !! j = Some w -> i = j) ->
  NoDup order.*1 ->
  forall w2p w2p' vecid p w,
  merge_terms v2w order w2p = Some w2p' ->
  w2p !! w = None -> (vecid, p) ∈ order -> v2w !! vecid = Some w ->
  w2p' !! w = Some p.
Proof.
  intros Hinj. induction order as [|[vecid0 pol0] rest IH];
    intros Hnodup w2p w2p' vecid p w Hrun Hfresh Hin Hv;
    [by apply elem_of_nil in Hin|].
  cbn [fmap list_fmap fst] in Hnodup. apply NoDup_cons in Hnodup as [Hid0 Hnodup].
  cbn [merge_terms] in Hrun.
  destruct (v2w !! vecid0) as [word0|] eqn:Hword0; [|done].
  apply elem_of_cons in Hin as [[= -> ->]|Hin].
  - assert (word0 = w) as -> by congruence.
    eapply merge_terms_keeps; [done|].
    rewrite lookup_emplace, Hfresh. by rewrite decide_True.
  - apply (IH Hnodup _ _ vecid p w Hrun); [|done..].
    rewrite lookup_emplace, Hfresh. case_decide as Heq; [|done]. subst word0.
    destruct Hid0. rewrite (Hinj vecid0 vecid w Hword0 Hv).
    by apply (list_elem_of_fmap_2 fst _ (vecid, p)).
Qed.

(** X13: the index after the merge holds the old entries unchanged and,
    for words it did not hold, only polarities that the labeling gives to
    an id of that word.  When no word occurs under two ids, the new
    entries are exactly those, so the merged index does not depend on the
    order in which the labeling is traversed. *)
Theorem merge_terms_lookup (v2w : gmap nat string) (v2p : gmap nat Polarity)
    (w2p w2p' : gmap string Polarity) (order : list (nat * Polarity)) :
  iteration_of v2p order ->
  merge_terms v2w order w2p = Some w2p' ->
  (forall w p, w2p !! w = Some p -> w2p' !! w = Some p) /\
  (forall w p, w2p' !! w = Some p ->
     w2p !! w = Some p \/
     (w2p !! w = None /\ exists vecid, v2p !! vecid = Some p /\ v2w !! vecid = Some w)) /\
  ((forall i j w, v2w !! i = Some w -> v2w !! j = Some w -> i = j) ->
   (forall w p vecid, w2p !! w = None -> v2p !! vecid = Some p ->
                      v2w !! vecid = Some w -> w2p' !! w = Some p) /\
   (forall order', iteration_of v2p order' ->
                   merge_terms v2w order' w2p = Some w2p')).
Proof.
  intros Horder Hrun. unfold iteration_of in Horder.
  assert (forall order0 w2p0, order0 ≡ₚ map_to_list v2p ->
            merge_terms v2w order0 w2p = Some w2p0 ->
            forall w p, w2p0 !! w = Some p ->
              w2p !! w = Some p \/
              (w2p !! w = None /\
               exists vecid, v2p !! vecid = Some p /\ v2w !! vecid = Some w)) as Horigin.
  { intros order0 w2p0 Horder0 Hrun0 w p Hw.
    destruct (merge_terms_origin _ _ _ _ Hrun0 w p Hw)
      as [Hold|[Hold (vecid & Hin & Hv)]]; [by left|].
    right. split; [done|]. exists vecid. split; [|done].
    apply elem_of_map_to_list. by rewrite <- Horder0. }
  split; [exact (merge_terms_keeps _ _ _ _ Hrun)|].
  split; [exact (Horigin order w2p' Horder Hrun)|].
  intros Hinj.
  assert (forall order0 w2p0, order0 ≡ₚ map_to_list v2p ->
            merge_terms v2w order0 w2p = Some w2p0 ->
            forall w p vecid, w2p !! w = None -> v2p !! vecid = Some p ->
                              v2w !! vecid = Some w -> w2p0 !! w = Some p) as Hfinds.
  { intros order0 w2p0 Horder0 Hrun0 w p vecid Hold Hp Hv.
    eapply (merge_terms_finds v2w order0 Hinj); try done.
    - rewrite Horder0. apply NoDup_fst_map_to_list.
    - rewrite Horder0. by apply elem_of_map_to_list. }
  split; [exact (Hfinds order w2p' Horder Hrun)|].
  intros order' Horder'. unfold iteration_of in Horder'.
  destruct (merge_terms v2w order' w2p) as [w2p''|] eqn:Hrun'.
  - f_equal. apply map_eq. intros w. apply option_eq. intros p. split.
    + intros Hw. destruct (Horigin _ _ Horder' Hrun' w p Hw)
        as [Hold|[Hold (vecid & Hp & Hv)]].
      * exact (merge_terms_keeps _ _ _ _ Hrun w p Hold).
      * exact (Hfinds order w2p' Horder Hrun w p vecid Hold Hp Hv).
    + intros Hw. destruct (Horigin _ _ Horder Hrun w p Hw)
        as [Hold|[Hold (vecid & Hp & Hv)]].
      * exact (merge_terms_keeps _ _ _ _ Hrun' w p Hold).
      * exact (Hfinds order' w2p'' Horder' Hrun' w p vecid Hold Hp Hv).
  - apply merge_terms_stops in Hrun' as (vecid & pol & Hin & Hnone).
    assert (merge_terms v2w order w2p = None) as Habs.
    { apply (merge_terms_stops_at _ _ vecid pol); [|done].
      rewrite Horder. by rewrite <- Horder'. }
    congruence.
Qed.

Lemma merge_terms_lookup_witness :
  iteration_of sample_labeling (map_to_list sample_labeling) /\
  merge_terms sample_vecid2word (map_to_list sample_labeling) sample_seed_index
  = Some sample_final_index /\
  (sample_final_index !! "table" = Some NEUTRAL ->
   sample_seed_index !! "table" = Some NEUTRAL \/
   (sample_seed_index !! "table" = None /\
    exists vecid, sample_labeling !! vecid = Some NEUTRAL /\
                  sample_vecid2word !! vecid = Some "table")).
Proof.
  assert (iteration_of sample_labeling (map_to_list sample_labeling)) as Horder
    by (unfold iteration_of; reflexivity).
  assert (merge_terms sample_vecid2word (map_to_list sample_labeling) sample_seed_index
          = Some sample_final_index) as Hrun by (vm_compute; reflexivity).
  split; [exact Horder|]. split; [exact Hrun|].
  destruct (merge_terms_lookup _ _ _ _ _ Horder Hrun) as (_ & Horigin & _).
  apply Horigin.
Defined.

(** ** The output is determined by the index *)

Lemma bytes_lt_asym a : forall b, bytes_lt a b -> bytes_lt b a -> False.
Proof.
  induction a as [|x a IH]; intros [|y b]; cbn [bytes_lt]; try done.
  intros [Hxy|[-> Hab]] [Hyx|[Heq Hba]]; try lia.
  - subst. lia.
  - by eapply IH.
Qed.

Lemma emitted_entries (w2p : gmap string Polarity) (out : list string) :
  map_Forall (fun w _ => nul_free w = true) w2p ->
  emitted w2p out ->
  exists entries : list (string * Polarity),
    entries ≡ₚ map_to_list w2p /\
    out = map entry_line entries /\
    StronglySorted (fun e1 e2 => bytes_lt e1.1 e2.1) entries.
Proof.
  intros Hnul (order & wpv & Horder & [Hperm Hsorted] & ->).
  unfold iteration_of in Horder.
  assert (Forall (fun e : string * Polarity => nul_free e.1 = true) order) as Horder_nul.
  { apply Forall_forall. intros [w p] Hin. rewrite Horder in Hin.
    apply elem_of_map_to_list in Hin. by apply (Hnul w p). }
  assert (map wp_entry wpv ≡ₚ order) as Hentries.
  { rewrite <- (populate_nul_free order Horder_nul). by apply fmap_Permutation. }
  exists (map wp_entry wpv). split; [by rewrite Hentries|]. split.
  { unfold output_lines. by rewrite map_map. }
  assert (StronglySorted bytes_lt (map m_word wpv)) as Hwords.
  { apply sorted_words_strict.
    - done.
    - change m_word with (fun x => (wp_entry x).1). rewrite <- map_map.
      assert (map fst (map wp_entry wpv) ≡ₚ map fst (map_to_list w2p)) as ->
        by (apply fmap_Permutation; by rewrite Hentries).
      apply NoDup_fst_map_to_list.
    - apply Forall_forall. intros wp Hwp.
      assert (wp_entry wp ∈ order) as Hin.
      { rewrite <- Hentries. by apply (list_elem_of_fmap_2 wp_entry). }
      eapply Forall_forall in Horder_nul; [|exact Hin]. done. }
  clear -Hwords. induction wpv as [|wp wpv IH]; [constructor|].
  cbn [map] in *. apply StronglySorted_cons in Hwords as [Hhd Htl].
  apply StronglySorted_cons. split; [|by apply IH].
  rewrite Forall_forall in Hhd. apply Forall_forall. intros e He.
  apply list_elem_of_In, in_map_iff in He as (wp' & <- & Hwp').
  apply Hhd, list_elem_of_In. exact (in_map m_word _ _ Hwp').
Qed.

(** X14: for an index whose words contain no NUL byte the output is
    fully determined: any two runs of the output step, whatever the
    traversal order of the hash map and whatever [std::sort] does with
    its input, write the same lines, one line per entry of the index. *)
Theorem output_determined_without_nul (w2p : gmap string Polarity)
    (out1 out2 : list string) :
  map_Forall (fun w _ => nul_free w = true) w2p ->
  emitted w2p out1 -> emitted w2p out2 ->
  out1 = out2 /\ length out1 = size w2p.
Proof.
  intros Hnul Hout1 Hout2.
  destruct (emitted_entries _ _ Hnul Hout1) as (e1 & Hp1 & -> & Hs1).
  destruct (emitted_entries _ _ Hnul Hout2) as (e2 & Hp2 & -> & Hs2).
  assert (e1 = e2) as ->.
  { eapply StronglySorted_unique_strong; [|exact Hs1|exact Hs2|by rewrite Hp1, Hp2].
    intros x1 x2 _ _ H12 H21. destruct (bytes_lt_asym _ _ H12 H21). }
  split; [done|].
  by rewrite length_map, Hp2, length_map_to_list.
Qed.

Lemma output_determined_without_nul_witness :
  map_Forall (fun w _ => nul_free w = true) sample_final_index /\
  emitted sample_final_index sample_output /\
  length sample_output = size sample_final_index.
Proof.
  split; [exact sample_final_index_nul_free|].
  split; [exact sample_output_emitted|].
  apply (output_determined_without_nul _ _ _ sample_final_index_nul_free
           sample_output_emitted sample_output_emitted).
Defined.

(** ** The whole run *)

Lemma sample_schedule_admissible : admissible sample_schedule.
Proof.
  split; [|split; [|split]]; try (intros m; unfold iteration_of; reflexivity).
  intros l. apply std_sort_correct; [apply wp_less_asym|apply wp_less_negtrans].
Qed.

(** X15: when a loader fails nothing is written.  A run of [main] that
    returns a non-zero status returns 1 and has written no line; if
    [read_vectors] returns a non-zero status, the run ends with that
    status and no output whatever the seed file is (it is not read), and
    likewise if [read_seed_set] fails after a successful vector load. *)
Theorem main_failure_writes_nothing (rt : runtime) (lib : expansion_library)
    (sch : schedule) (opt : Option) (vector_file seed_file : option ifstream) :
  (forall code out,
      main rt lib sch opt vector_file seed_file = Exit code out ->
      code <> 0 -> code = 1 /\ out = []) /\
  (forall c g,
      read_vectors rt vector_file (no_length_normalize opt) (no_mean_normalize opt)
                   initial_globals = Returned c g ->
      c <> 0 ->
      forall other_seed_file,
        main rt lib sch opt vector_file other_seed_file = Exit c []) /\
  (forall g c g',
      read_vectors rt vector_file (no_length_normalize opt) (no_mean_normalize opt)
                   initial_globals = Returned 0 g ->
      read_seed_set seed_file g = Returned c g' ->
      c <> 0 ->
      main rt lib sch opt vector_file seed_file = Exit c []).
Proof.
  split; [|split].
  - intros code out. unfold main.
    destruct (read_vectors _ _ _ _ _) as [c1 g1|] eqn:Hvec; [|done].
    destruct (read_vectors_code _ _ _ _ _ _ _ Hvec) as [-> | ->]; cbn.
    + destruct (read_seed_set seed_file g1) as [c2 g2|] eqn:Hseed; [|done].
      destruct (read_seed_set_code _ _ _ _ Hseed) as [-> | ->]; cbn.
      * destruct (expand _ _ _ _); [|done].
        destruct (output_terms _ _ _ _) as [[? ?]|]; [|done].
        by intros [= <- <-].
      * by intros [= <- <-].
    + by intros [= <- <-].
  - intros c g Hvec Hc other. unfold main. rewrite Hvec.
    by rewrite (proj2 (Z.eqb_neq c 0) Hc).
  - intros g c g' Hvec Hseed Hc. unfold main. rewrite Hvec. cbn.
    rewrite Hseed. by rewrite (proj2 (Z.eqb_neq c 0) Hc).
Qed.

Lemma main_failure_writes_nothing_witness :
  main decimal_runtime idle_library sample_schedule default_option
       (Some malformed_vectors) (Some scenario_seeds) = Exit 1 [].
Proof.
  destruct (main_failure_writes_nothing decimal_runtime idle_library sample_schedule
              default_option (Some malformed_vectors) (Some scenario_seeds))
    as (_ & Hvec & _).
  apply (Hvec 1 (Globals ∅ ∅ ∅ Arma.reset)); [vm_compute; reflexivity|lia].
Defined.

(** X16: a run of [main] under an admissible schedule that returns
    status 0 loaded both files successfully, called the selected
    expansion on the labeling projected from the seeds, and wrote an
    output of the merged index: one line per word of that index, among
    them a line with the seed polarity for every word of the seed map,
    whatever the expansion returned. *)
Theorem main_success_output (rt : runtime) (lib : expansion_library)
    (sch : schedule) (opt : Option) (vector_file seed_file : option ifstream)
    (out : list string) :
  admissible sch ->
  main rt lib sch opt vector_file seed_file = Exit 0 out ->
  exists g1 g2 vecid2pol w2p,
    read_vectors rt vector_file (no_length_normalize opt) (no_mean_normalize opt)
                 initial_globals = Returned 0 g1 /\
    read_seed_set seed_file g1 = Returned 0 g2 /\
    expand lib opt (project_seeds (word2vecid g2) (seeds_order sch (word2pol g2)))
           (NWE g2) = Some vecid2pol /\
    merge_terms (vecid2word g2) (labels_order sch vecid2pol) (word2pol g2) = Some w2p /\
    emitted w2p out /\
    length out = size w2p /\
    forall w p, word2pol g2 !! w = Some p ->
                w2p !! w = Some p /\ output_line (WP (CStr.c_str w) p) ∈ out.
Proof.
  intros (_ & _ & Hindex & Hsort). unfold main.
  destruct (read_vectors _ _ _ _ _) as [c1 g1|] eqn:Hvec; [|done].
  destruct (negb (c1 =? 0)) eqn:Hc1; [by intros [= -> _]|].
  apply negb_false_iff, Z.eqb_eq in Hc1 as ->.
  destruct (read_seed_set seed_file g1) as [c2 g2|] eqn:Hseed; [|done].
  destruct (negb (c2 =? 0)) eqn:Hc2; [by intros [= -> _]|].
  apply negb_false_iff, Z.eqb_eq in Hc2 as ->. cbn zeta.
  destruct (expand _ _ _ _) as [vecid2pol|] eqn:Hexpand; [|done].
  unfold output_terms, mbind, option_bind.
  destruct (merge_terms _ _ _) as [w2p|] eqn:Hmerge; [|done].
  intros [= <-].
  assert (emitted w2p (output_lines (sort_run sch (populate (index_order sch w2p)))))
    as Hout by (exists (index_order sch w2p), (sort_run sch (populate (index_order sch w2p))); done).
  exists g1, g2, vecid2pol, w2p.
  split; [done|]. split; [done|]. split; [done|]. split; [done|]. split; [done|].
  split.
  - destruct (Hsort (populate (index_order sch w2p))) as [Hperm _].
    unfold output_lines. rewrite length_map, Hperm. unfold populate. rewrite length_map.
    rewrite (Hindex w2p). apply length_map_to_list.
  - intros w p Hw.
    assert (w2p !! w = Some p) as Hw' by by eapply merge_terms_keeps.
    split; [done|]. by eapply emitted_line.
Qed.

Lemma main_success_output_witness :
  admissible sample_schedule /\
  main decimal_runtime idle_library sample_schedule default_option
       (Some scenario_vectors) (Some scenario_seeds)
  = Exit 0 [output_line (WP "bad" NEGATIVE); output_line (WP "good" POSITIVE)] /\
  exists g1 g2 vecid2pol w2p,
    read_vectors decimal_runtime (Some scenario_vectors) false false initial_globals
    = Returned 0 g1 /\
    read_seed_set (Some scenario_seeds) g1 = Returned 0 g2 /\
    expand idle_library default_option
           (project_seeds (word2vecid g2) (map_to_list (word2pol g2))) (NWE g2)
    = Some vecid2pol /\
    merge_terms (vecid2word g2) (map_to_list vecid2pol) (word2pol g2) = Some w2p /\
    emitted w2p [output_line (WP "bad" NEGATIVE); output_line (WP "good" POSITIVE)] /\
    length [output_line (WP "bad" NEGATIVE); output_line (WP "good" POSITIVE)]
    = size w2p /\
    forall w p, word2pol g2 !! w = Some p ->
                w2p !! w = Some p /\
                output_line (WP (CStr.c_str w) p)
                ∈ [output_line (WP "bad" NEGATIVE); output_line (WP "good" POSITIVE)].
Proof.
  assert (main decimal_runtime idle_library sample_schedule default_option
               (Some scenario_vectors) (Some scenario_seeds)
          = Exit 0 [output_line (WP "bad" NEGATIVE); output_line (WP "good" POSITIVE)])
    as Hrun by (vm_compute; reflexivity).
  split; [exact sample_schedule_admissible|]. split; [exact Hrun|].
  exact (main_success_output _ _ _ _ _ _ _ sample_schedule_admissible Hrun).
Defined.
